(** * Attribute store of microxml (mxml-attr.c)

    A shallow embedding of the five public attribute functions of
    [mxml-attr.c] and of the static helper [mxml_set_attr], followed by the
    properties of the attribute store that the specification states.

    Conventions of the embedding.
    - A [char *] is an [option string]: [None] is the NULL pointer.  The
      strings themselves are values; ownership and [free] are not modelled.
    - The attribute array [attrs] is the list of the slots that are
      physically allocated; [num_attrs] says how many of them are in use.
      The array may be longer than [num_attrs]: [mxmlElementDeleteAttr] never
      shrinks it and a failed name copy leaves a grown array behind.
    - [num_attrs] is a C [int]; the code never drives it below zero and
      overflow is not modelled, so it is a natural number here.
    - Behaviour that C leaves undefined (passing NULL to [strcmp], reading
      past the array) is the outcome [Undefined].
    - The C library decides whether an allocation is granted.  A computation
      that allocates or reports runs in the monad [M]: it consumes a script
      of allocator answers and emits the events it caused. *)

From Stdlib Require Import ZArith String List Lia.
From stdpp Require Import base option list strings.

Local Open Scope string_scope.
Local Open Scope Z_scope.
Local Open Scope nat_scope.
Local Open Scope list_scope.

(** ** Data model *)

(** Modelled from the spec: [microxml.h] is not part of the sources at hand.
    The only node kind [mxml-attr.c] names is [MXML_ELEMENT]; every other
    tag of the enumeration is [MXML_OTHER]. *)
Inductive mxml_type_t : Type :=
| MXML_ELEMENT
| MXML_OTHER (tag : Z).

(** [struct mxml_attr_s { char *name; char *value; }] *)
Record mxml_attr_t : Type := {
  attr_name : option string;
  attr_value : option string
}.

(** [struct mxml_element_s { char *name; int num_attrs; mxml_attr_t *attrs; }] *)
Record mxml_element_t : Type := {
  element_name : string;
  num_attrs : nat;
  attrs : list mxml_attr_t
}.

(** The part of [struct mxml_node_s] that this file reads: the tag and the
    [element] member of the [value] union. *)
Record mxml_node_t : Type := {
  node_type : mxml_type_t;
  value_element : mxml_element_t
}.

Definition is_element (t : mxml_type_t) : bool :=
  match t with MXML_ELEMENT => true | MXML_OTHER _ => false end.

(** Field assignments. *)
Definition set_name (nm : option string) (a : mxml_attr_t) : mxml_attr_t :=
  {| attr_name := nm; attr_value := attr_value a |}.

Definition set_value (v : option string) (a : mxml_attr_t) : mxml_attr_t :=
  {| attr_name := attr_name a; attr_value := v |}.

Definition set_attrs (arr : list mxml_attr_t) (e : mxml_element_t) : mxml_element_t :=
  {| element_name := element_name e; num_attrs := num_attrs e; attrs := arr |}.

Definition set_num_attrs (n : nat) (e : mxml_element_t) : mxml_element_t :=
  {| element_name := element_name e; num_attrs := n; attrs := attrs e |}.

Definition set_element (e : mxml_element_t) (node : mxml_node_t) : mxml_node_t :=
  {| node_type := node_type node; value_element := e |}.

(** ** Outcomes, events and the monad *)

Inductive outcome (A : Type) : Type :=
| Undefined
| Ok (a : A).
Arguments Undefined {A}.
Arguments Ok {A} a.

(** The four places where the code asks the C library for memory. *)
Inductive alloc_site : Type :=
| ValueCopy     (* strdup(value) in mxmlElementSetAttr *)
| ArrayGrowth   (* malloc / realloc of the attribute array *)
| NameCopy      (* strdup(name) in mxml_set_attr *)
| FormatValue.  (* the buffer of _mxml_vstrdupf *)

Inductive event : Type :=
| Alloc (site : alloc_site) (granted : bool)
| Report (format : string) (args : list string).

(** The answers of the allocator to the requests still to come; once the
    script is used up every request is granted. *)
Definition allocator : Type := list bool.

Definition M (A : Type) : Type :=
  allocator -> outcome (A * allocator * list event).

Definition ret {A} (a : A) : M A := fun s => Ok (a, s, []).

Definition bind {A B} (m : M A) (k : A -> M B) : M B := fun s =>
  match m s with
  | Undefined => Undefined
  | Ok (a, s1, ev1) =>
      match k a s1 with
      | Undefined => Undefined
      | Ok (b, s2, ev2) => Ok (b, s2, ev1 ++ ev2)
      end
  end.

Definition lift {A} (o : outcome A) : M A := fun s =>
  match o with
  | Undefined => Undefined
  | Ok a => Ok (a, s, [])
  end.

Notation "x <- m ;; k" := (bind m (fun x => k))
  (at level 100, m at next level, right associativity).
Notation "m ;;; k" := (bind m (fun _ => k))
  (at level 100, right associativity).

(** The allocator's answer to the next request. *)
Definition next_answer (s : allocator) : bool :=
  match s with
  | [] => true
  | b :: _ => b
  end.

Definition alloc (site : alloc_site) : M bool := fun s =>
  Ok (next_answer s, tail s, [Alloc site (next_answer s)]).

(** [strdup]: a copy of the string, or NULL when the allocator refuses. *)
Definition strdup (site : alloc_site) (str : string) : M (option string) :=
  granted <- alloc site ;;
  ret (if granted then Some str else None).

(** Freshly allocated memory is indeterminate.  The model fills it with NULL
    pointers; [mxml_set_attr] writes a fresh slot before the slot comes into
    use and no function reads the slots at or past [num_attrs]. *)
Definition fresh_slot : mxml_attr_t :=
  {| attr_name := None; attr_value := None |}.

(** [malloc(n * sizeof(mxml_attr_t))] *)
Definition malloc (n : nat) : M (option (list mxml_attr_t)) :=
  granted <- alloc ArrayGrowth ;;
  ret (if granted then Some (replicate n fresh_slot) else None).

(** [realloc(arr, n * sizeof(mxml_attr_t))]: the first [n] slots of [arr],
    filled up with fresh slots when [arr] is shorter. *)
Definition realloc (arr : list mxml_attr_t) (n : nat) : M (option (list mxml_attr_t)) :=
  granted <- alloc ArrayGrowth ;;
  ret (if granted then Some (resize n fresh_slot arr) else None).

(** [memmove(arr + dst, arr + src, n * sizeof(mxml_attr_t))] inside one array. *)
Definition memmove (arr : list mxml_attr_t) (dst src n : nat) : outcome (list mxml_attr_t) :=
  if (src + n <=? length arr) && (dst + n <=? length arr)
  then Ok (take dst arr ++ take n (drop src arr) ++ drop (dst + n) arr)
  else Undefined.

(** Modelled from the spec: [mxml_error] is defined outside [mxml-attr.c].
    The Error Reporter receives the diagnostic, here the format and the
    strings substituted into it, and returns. *)
Definition mxml_error (format : string) (args : list string) : M unit :=
  fun s => Ok (tt, s, [Report format args]).

Definition alloc_failure : string :=
  "Unable to allocate memory for attribute '%s' in element %s!".

(** ** mxmlElementDeleteAttr *)

(** The loop of [mxmlElementDeleteAttr]: [i] slots remain, [attr] is the
    index of the current slot. *)
Fixpoint delete_attr_loop (i attr : nat) (e : mxml_element_t) (name : string)
  : outcome mxml_element_t :=
  match i with
  | O => Ok e
  | S i' =>
      match attrs e !! attr with
      | None => Undefined
      | Some a =>
          match attr_name a with
          | None => Undefined
          | Some n =>
              if String.eqb n name then
                (* i --; if (i > 0) memmove(attr, attr + 1, i slots) *)
                match (if 0 <? i' then memmove (attrs e) attr (S attr) i'
                       else Ok (attrs e)) with
                | Undefined => Undefined
                | Ok arr => Ok (set_num_attrs (num_attrs e - 1) (set_attrs arr e))
                end
              else delete_attr_loop i' (S attr) e name
          end
      end
  end.

Definition mxmlElementDeleteAttr (node : option mxml_node_t) (name : option string)
  : outcome (option mxml_node_t) :=
  match node with
  | None => Ok node
  | Some nd =>
      if negb (is_element (node_type nd)) then Ok node
      else match name with
           | None => Ok node
           | Some nm =>
               let e := value_element nd in
               match delete_attr_loop (num_attrs e) 0 e nm with
               | Undefined => Undefined
               | Ok e' => Ok (Some (set_element e' nd))
               end
           end
  end.

(** ** mxmlElementGetAttrValue *)

Fixpoint get_value_loop (i attr : nat) (arr : list mxml_attr_t) (name : string)
  : outcome (option string) :=
  match i with
  | O => Ok None
  | S i' =>
      match arr !! attr with
      | None => Undefined
      | Some a =>
          match attr_name a with
          | None => Undefined
          | Some n =>
              if String.eqb n name then Ok (attr_value a)
              else get_value_loop i' (S attr) arr name
          end
      end
  end.

Definition mxmlElementGetAttrValue (node : option mxml_node_t) (name : option string)
  : outcome (option string) :=
  match node with
  | None => Ok None
  | Some nd =>
      if negb (is_element (node_type nd)) then Ok None
      else match name with
           | None => Ok None
           | Some nm =>
               let e := value_element nd in
               get_value_loop (num_attrs e) 0 (attrs e) nm
           end
  end.

(** ** mxmlElementGetAttrName *)

(** The comparison is [strcmp(attr->value, value)]: a slot whose value is
    NULL hands NULL to [strcmp]. *)
Fixpoint get_name_loop (i attr : nat) (arr : list mxml_attr_t) (value : string)
  : outcome (option string) :=
  match i with
  | O => Ok None
  | S i' =>
      match arr !! attr with
      | None => Undefined
      | Some a =>
          match attr_value a with
          | None => Undefined
          | Some v =>
              if String.eqb v value then Ok (attr_name a)
              else get_name_loop i' (S attr) arr value
          end
      end
  end.

Definition mxmlElementGetAttrName (node : option mxml_node_t) (value : option string)
  : outcome (option string) :=
  match node with
  | None => Ok None
  | Some nd =>
      if negb (is_element (node_type nd)) then Ok None
      else match value with
           | None => Ok None
           | Some v =>
               let e := value_element nd in
               get_name_loop (num_attrs e) 0 (attrs e) v
           end
  end.

(** ** mxml_set_attr *)

(** The search loop of [mxml_set_attr]: [Some e'] when a slot named [name]
    was found and its value replaced, [None] when the loop ran out. *)
Fixpoint set_attr_loop (i attr : nat) (e : mxml_element_t) (name : string)
  (value : option string) : outcome (option mxml_element_t) :=
  match i with
  | O => Ok None
  | S i' =>
      match attrs e !! attr with
      | None => Undefined
      | Some a =>
          match attr_name a with
          | None => Undefined
          | Some n =>
              if String.eqb n name
              then Ok (Some (set_attrs (alter (set_value value) attr (attrs e)) e))
              else set_attr_loop i' (S attr) e name value
          end
      end
  end.

(** Returns the status ([0] on success, [-1] on failure) and the node as
    the call leaves it. *)
Definition mxml_set_attr (node : mxml_node_t) (name : string) (value : option string)
  : M (Z * mxml_node_t) :=
  let e := value_element node in
  found <- lift (set_attr_loop (num_attrs e) 0 e name value) ;;
  match found with
  | Some e' => ret (0%Z, set_element e' node)
  | None =>
      attr <- (if num_attrs e =? 0 then malloc 1
               else realloc (attrs e) (num_attrs e + 1)) ;;
      match attr with
      | None =>
          mxml_error alloc_failure [name; element_name e] ;;;
          ret ((-1)%Z, node)
      | Some arr =>
          (* node->value.element.attrs = attr; attr += num_attrs *)
          let e1 := set_attrs arr e in
          let k := num_attrs e in
          copy <- strdup NameCopy name ;;
          let e2 := set_attrs (alter (set_name copy) k (attrs e1)) e1 in
          match copy with
          | None =>
              mxml_error alloc_failure [name; element_name e] ;;;
              ret ((-1)%Z, set_element e2 node)
          | Some _ =>
              let e3 := set_attrs (alter (set_value value) k (attrs e2)) e2 in
              let e4 := set_num_attrs (num_attrs e3 + 1) e3 in
              ret (0%Z, set_element e4 node)
          end
      end
  end.

(** ** mxmlElementSetAttr *)

(** The C function returns nothing.  The model also hands back the status of
    the inner [mxml_set_attr] call, [None] when the range check returns
    before it, so that statements can speak of success and failure. *)
Definition mxmlElementSetAttr (node : option mxml_node_t) (name value : option string)
  : M (option Z * option mxml_node_t) :=
  match node with
  | None => ret (None, node)
  | Some nd =>
      if negb (is_element (node_type nd)) then ret (None, node)
      else match name with
           | None => ret (None, node)
           | Some nm =>
               valuec <- match value with
                         | Some v => strdup ValueCopy v
                         | None => ret None
                         end ;;
               r <- mxml_set_attr nd nm valuec ;;
               ret (Some (fst r), Some (snd r))
           end
  end.

(** ** mxmlElementSetAttrf *)

Section Formatted.

(** The variable arguments of the call and the host's formatting of them. *)
Variable va_list : Type.
Variable vsnprintf : string -> va_list -> string.

(** Modelled from the spec: [_mxml_vstrdupf] is defined outside
    [mxml-attr.c].  It composes the format with the arguments into a
    freshly allocated string and returns NULL when that allocation fails. *)
Definition _mxml_vstrdupf (format : string) (ap : va_list) : M (option string) :=
  strdup FormatValue (vsnprintf format ap).

Definition mxmlElementSetAttrf (node : option mxml_node_t) (name format : option string)
  (ap : va_list) : M (option Z * option mxml_node_t) :=
  match node with
  | None => ret (None, node)
  | Some nd =>
      if negb (is_element (node_type nd)) then ret (None, node)
      else match name, format with
           | Some nm, Some fmt =>
               value <- _mxml_vstrdupf fmt ap ;;
               match value with
               | None =>
                   mxml_error alloc_failure [nm; element_name (value_element nd)] ;;;
                   ret (None, node)
               | Some _ =>
                   r <- mxml_set_attr nd nm value ;;
                   ret (Some (fst r), Some (snd r))
               end
           | _, _ => ret (None, node)
           end
  end.

(** ** The five operations as calls on a node *)

Inductive call : Type :=
| GetValue (name : option string)
| GetNameByValue (value : option string)
| SetValue (name value : option string)
| SetFormatted (name format : option string) (ap : va_list)
| DeleteByName (name : option string).

Inductive reply : Type :=
| RString (s : option string)
| RStatus (st : option Z)
| RVoid.

(** What a caller observes of one call: the reply, the node afterwards,
    the allocator script left over and the events. *)
Definition exec (c : call) (node : option mxml_node_t) : M (reply * option mxml_node_t) :=
  match c with
  | GetValue name =>
      v <- lift (mxmlElementGetAttrValue node name) ;; ret (RString v, node)
  | GetNameByValue value =>
      n <- lift (mxmlElementGetAttrName node value) ;; ret (RString n, node)
  | SetValue name value =>
      r <- mxmlElementSetAttr node name value ;; ret (RStatus (fst r), snd r)
  | SetFormatted name format ap =>
      r <- mxmlElementSetAttrf node name format ap ;; ret (RStatus (fst r), snd r)
  | DeleteByName name =>
      node' <- lift (mxmlElementDeleteAttr node name) ;; ret (RVoid, node')
  end.

End Formatted.

Arguments GetValue {va_list} name.
Arguments GetNameByValue {va_list} value.
Arguments SetValue {va_list} name value.
Arguments SetFormatted {va_list} name format ap.
Arguments DeleteByName {va_list} name.
Arguments exec {va_list} vsnprintf c node.
Arguments mxmlElementSetAttrf {va_list} vsnprintf node name format ap.

(** ** Observations on an element *)

(** The slots in use. *)
Definition live (e : mxml_element_t) : list mxml_attr_t :=
  take (num_attrs e) (attrs e).

(** The invariant of the array: the slots in use exist and each has a name. *)
Definition element_ok (e : mxml_element_t) : bool :=
  (num_attrs e <=? length (attrs e)) &&
  forallb (fun a => bool_decide (is_Some (attr_name a))) (live e).

(** An element node around [e], and a pointer to it. *)
Definition element_node (e : mxml_element_t) : mxml_node_t :=
  {| node_type := MXML_ELEMENT; value_element := e |}.

Definition elem (e : mxml_element_t) : option mxml_node_t :=
  Some (element_node e).

(** The element of a node without attributes. *)
Definition no_attrs (ename : string) : mxml_element_t :=
  {| element_name := ename; num_attrs := 0; attrs := [] |}.


(** The slot carries the name [name]. *)
Definition named (name : string) (a : mxml_attr_t) : Prop :=
  attr_name a = Some name.

#[global] Instance named_dec name a : Decision (named name a).
Proof. unfold named. apply _. Defined.

(** The names of the slots in use, in storage order. *)
Definition names (e : mxml_element_t) : list (option string) :=
  attr_name <$> live e.

(** What [mxmlElementDeleteAttr] leaves of [e] once it has found the name in
    slot [p] with [i] slots behind it. *)
Definition close_gap (p i : nat) (e : mxml_element_t) : mxml_element_t :=
  let arr := attrs e in
  set_num_attrs (num_attrs e - 1)
    (set_attrs (if 0 <? i
                then take p arr ++ take i (drop (S p) arr) ++ drop (p + i) arr
                else arr) e).

(** The array [mxml_set_attr] works on after a granted growth. *)
Definition grown (e : mxml_element_t) : list mxml_attr_t :=
  if num_attrs e =? 0 then replicate 1 fresh_slot
  else resize (num_attrs e + 1) fresh_slot (attrs e).

(** Two elements that agree on what the code may read: the element name,
    the count and the slots in use.  The slots past the count may differ. *)
Definition same_store (e1 e2 : mxml_element_t) : Prop :=
  element_name e1 = element_name e2 ∧
  num_attrs e1 = num_attrs e2 ∧
  live e1 = live e2.

(** The invariant of the array as a proposition. *)
Definition wf (e : mxml_element_t) : Prop :=
  num_attrs e ≤ length (attrs e) ∧
  Forall (λ a, is_Some (attr_name a)) (live e).

(** ** The copy of the value and the cases of mxml_set_attr *)

(** The value [mxmlElementSetAttr] hands to [mxml_set_attr], the script left
    after the copy and the event of the copy. *)
Definition copied (value : option string) (s : allocator) : option string :=
  match value with
  | Some v => if next_answer s then Some v else None
  | None => None
  end.

Definition after_copy (value : option string) (s : allocator) : allocator :=
  match value with
  | Some _ => tail s
  | None => s
  end.

Definition copy_events (value : option string) (s : allocator) : list event :=
  match value with
  | Some _ => [Alloc ValueCopy (next_answer s)]
  | None => []
  end.

(** The four ways through [mxml_set_attr] on element [e]: status, element
    afterwards, script left over, events. *)
Inductive set_attr_case (e : mxml_element_t) (name : string) (v : option string)
  (s : allocator) : Z → mxml_element_t → allocator → list event → Prop :=
| SA_replaced k a :
    list_find (named name) (live e) = Some (k, a) →
    set_attr_case e name v s 0%Z
      (set_attrs (alter (set_value v) k (attrs e)) e) s []
| SA_growth_refused :
    list_find (named name) (live e) = None →
    next_answer s = false →
    set_attr_case e name v s (-1)%Z e (tail s)
      [Alloc ArrayGrowth false; Report alloc_failure [name; element_name e]]
| SA_name_refused :
    list_find (named name) (live e) = None →
    next_answer s = true →
    next_answer (tail s) = false →
    set_attr_case e name v s (-1)%Z
      (set_attrs (alter (set_name None) (num_attrs e) (grown e)) e) (tail (tail s))
      [Alloc ArrayGrowth true; Alloc NameCopy false;
       Report alloc_failure [name; element_name e]]
| SA_added :
    list_find (named name) (live e) = None →
    next_answer s = true →
    next_answer (tail s) = true →
    set_attr_case e name v s 0%Z
      (set_num_attrs (num_attrs e + 1)
         (set_attrs (alter (set_value v) (num_attrs e)
                       (alter (set_name (Some name)) (num_attrs e) (grown e))) e))
      (tail (tail s))
      [Alloc ArrayGrowth true; Alloc NameCopy true].

(** ** Calls that the range check turns away *)

Definition not_an_element (node : option mxml_node_t) : bool :=
  match node with
  | None => true
  | Some nd => negb (is_element (node_type nd))
  end.

(** A string argument that the range check of the call tests is NULL. *)
Definition lacks_argument {va_list} (c : call va_list) : bool :=
  match c with
  | GetValue None | GetNameByValue None | SetValue None _ | DeleteByName None => true
  | SetFormatted None _ _ | SetFormatted _ None _ => true
  | _ => false
  end.

Definition neutral {va_list} (c : call va_list) : reply :=
  match c with
  | GetValue _ | GetNameByValue _ => RString None
  | SetValue _ _ | SetFormatted _ _ _ => RStatus None
  | DeleteByName _ => RVoid
  end.

(** ** Reports of a call *)

Fixpoint reports (evs : list event) : list (string * list string) :=
  match evs with
  | [] => []
  | Report f args :: evs' => (f, args) :: reports evs'
  | Alloc _ _ :: evs' => reports evs'
  end.

(** The number of requests to the allocator among the events. *)
Fixpoint requests (evs : list event) : nat :=
  match evs with
  | [] => 0
  | Alloc _ _ :: evs' => S (requests evs')
  | Report _ _ :: evs' => requests evs'
  end.

(** What a call did to the store and told the reporter: status, node,
    script left over and the reports, without the allocation events. *)
Definition effect (o : outcome (option Z * option mxml_node_t * allocator * list event))
  : outcome (option Z * option mxml_node_t * allocator * list (string * list string)) :=
  match o with
  | Undefined => Undefined
  | Ok (r, s, evs) => Ok (r, s, reports evs)
  end.

(** ** Elements of the scenario of the specification *)

Definition img_src (v : option string) : mxml_element_t :=
  {| element_name := "img"; num_attrs := 1;
     attrs := [ {| attr_name := Some "src"; attr_value := v |} ] |}.

Definition img_src_alt : mxml_element_t :=
  {| element_name := "img"; num_attrs := 2;
     attrs := [ {| attr_name := Some "src"; attr_value := Some "b.png" |};
                {| attr_name := Some "alt"; attr_value := Some "pic" |} ] |}.

Definition img_alt : mxml_element_t :=
  {| element_name := "img"; num_attrs := 1;
     attrs := [ {| attr_name := Some "alt"; attr_value := Some "pic" |} ] |}.

(** A host formatter for the examples: no arguments, the format is the text. *)
Definition verbatim : string -> unit -> string := fun format _ => format.

(** * Properties *)

(** ** The scenario of the specification, step by step *)

Example scenario_1 :
  mxmlElementSetAttr (elem (no_attrs "img")) (Some "src") (Some "a.png") []
  = Ok ((Some 0%Z, elem (img_src (Some "a.png"))), [],
        [Alloc ValueCopy true; Alloc ArrayGrowth true; Alloc NameCopy true]) ∧
  mxmlElementGetAttrValue (elem (img_src (Some "a.png"))) (Some "src") = Ok (Some "a.png").
Proof. split; reflexivity. Qed.

Example scenario_2 :
  mxmlElementSetAttr (elem (img_src (Some "a.png"))) (Some "src") (Some "b.png") []
  = Ok ((Some 0%Z, elem (img_src (Some "b.png"))), [], [Alloc ValueCopy true]) ∧
  mxmlElementGetAttrValue (elem (img_src (Some "b.png"))) (Some "src") = Ok (Some "b.png").
Proof. split; reflexivity. Qed.

Example scenario_3 :
  mxmlElementSetAttr (elem (img_src (Some "b.png"))) (Some "alt") (Some "pic") []
  = Ok ((Some 0%Z, elem img_src_alt), [],
        [Alloc ValueCopy true; Alloc ArrayGrowth true; Alloc NameCopy true]) ∧
  names img_src_alt = [Some "src"; Some "alt"].
Proof. split; reflexivity. Qed.

(** The array keeps its two slots; the second one is no longer in use. *)
Example scenario_4 :
  mxmlElementDeleteAttr (elem img_src_alt) (Some "src")
  = Ok (elem (set_num_attrs 1 (set_attrs (attrs img_alt ++ attrs img_alt) img_alt))) ∧
  live (set_num_attrs 1 (set_attrs (attrs img_alt ++ attrs img_alt) img_alt))
  = [ {| attr_name := Some "alt"; attr_value := Some "pic" |} ].
Proof. split; reflexivity. Qed.

Example scenario_5 {va_list} (vsnprintf : string → va_list → string) ap :
  vsnprintf "%d" ap = "100" →
  ∃ e, mxmlElementSetAttrf vsnprintf
         (elem (set_num_attrs 1 (set_attrs (attrs img_alt ++ attrs img_alt) img_alt)))
         (Some "width") (Some "%d") ap []
       = Ok ((Some 0%Z, elem e), [],
             [Alloc FormatValue true; Alloc ArrayGrowth true; Alloc NameCopy true]) ∧
       num_attrs e = 2 ∧
       mxmlElementGetAttrValue (elem e) (Some "width") = Ok (Some "100").
Proof.
  intros Hfmt. eexists. cbn. unfold bind, strdup, alloc, ret. cbn.
  rewrite Hfmt. split_and!; reflexivity.
Qed.

Example scenario_6 :
  mxmlElementGetAttrName (elem img_src_alt) (Some "pic") = Ok (Some "alt") ∧
  mxmlElementGetAttrName (elem img_src_alt) (Some "missing") = Ok None.
Proof. split; reflexivity. Qed.

(** ** The invariant of the array *)

Lemma element_ok_wf e : element_ok e = true ↔ wf e.
Proof.
  unfold element_ok, wf.
  rewrite andb_true_iff, Nat.leb_le, forallb_forall, Forall_forall.
  split; intros [Hn Hl]; split; auto; intros a Ha.
  - apply list_elem_of_In, Hl in Ha. by apply bool_decide_eq_true in Ha.
  - apply bool_decide_eq_true, Hl. by apply list_elem_of_In.
Qed.

(** ** The four loops *)

Section Loops.

Variable name : string.

Lemma eqb_named n a :
  attr_name a = Some n →
  String.eqb n name = bool_decide (named name a).
Proof.
  intros Ha.
  destruct (String.eqb_spec n name) as [->|Hne].
  - by rewrite bool_decide_eq_true_2.
  - rewrite bool_decide_eq_false_2; [done|]. unfold named. congruence.
Qed.

(** A segment of [i] slots starting at [attr], all inside the array. *)
Lemma segment_cons i attr (arr : list mxml_attr_t) :
  attr + S i ≤ length arr →
  ∃ a, arr !! attr = Some a ∧
       take (S i) (drop attr arr) = a :: take i (drop (S attr) arr).
Proof.
  intros Hlen.
  destruct (lookup_lt_is_Some_2 arr attr) as [a Ha]; [lia|].
  exists a. split; [done|]. by rewrite (drop_S _ _ _ Ha).
Qed.

Lemma get_value_loop_spec i : ∀ attr arr,
  attr + i ≤ length arr →
  Forall (λ a, is_Some (attr_name a)) (take i (drop attr arr)) →
  get_value_loop i attr arr name =
  Ok (list_find (named name) (take i (drop attr arr)) ≫= attr_value ∘ snd).
Proof.
  induction i as [|i IH]; intros attr arr Hlen Hnm; [done|].
  destruct (segment_cons i attr arr Hlen) as (a & Ha & Hseg).
  rewrite Hseg in *. apply Forall_cons in Hnm as [[n Hn] Hnm].
  cbn [get_value_loop list_find]. rewrite Ha, Hn, (eqb_named n a Hn).
  case_bool_decide as Hd; rewrite ?decide_True, ?decide_False by done; [done|].
  rewrite IH by (done || lia).
  by destruct (list_find _ _) as [[]|].
Qed.

Lemma set_attr_loop_spec value i : ∀ attr e,
  attr + i ≤ length (attrs e) →
  Forall (λ a, is_Some (attr_name a)) (take i (drop attr (attrs e))) →
  set_attr_loop i attr e name value =
  Ok ((λ p, set_attrs (alter (set_value value) (attr + p.1) (attrs e)) e)
        <$> list_find (named name) (take i (drop attr (attrs e)))).
Proof.
  induction i as [|i IH]; intros attr e Hlen Hnm; [done|].
  destruct (segment_cons i attr (attrs e) Hlen) as (a & Ha & Hseg).
  rewrite Hseg in *. apply Forall_cons in Hnm as [[n Hn] Hnm].
  cbn [set_attr_loop list_find]. rewrite Ha, Hn, (eqb_named n a Hn).
  case_bool_decide as Hd; rewrite ?decide_True, ?decide_False by done.
  - cbn. by rewrite Nat.add_0_r.
  - rewrite IH by (done || lia).
    destruct (list_find _ _) as [[k b]|]; [|done].
    cbn. by rewrite Nat.add_succ_r.
Qed.

Lemma delete_attr_loop_spec i : ∀ attr e,
  attr + i ≤ length (attrs e) →
  Forall (λ a, is_Some (attr_name a)) (take i (drop attr (attrs e))) →
  delete_attr_loop i attr e name =
  Ok (match list_find (named name) (take i (drop attr (attrs e))) with
      | Some (k, _) => close_gap (attr + k) (i - k - 1) e
      | None => e
      end).
Proof.
  induction i as [|i IH]; intros attr e Hlen Hnm; [done|].
  destruct (segment_cons i attr (attrs e) Hlen) as (a & Ha & Hseg).
  rewrite Hseg in *. apply Forall_cons in Hnm as [[n Hn] Hnm].
  cbn [delete_attr_loop list_find]. rewrite Ha, Hn, (eqb_named n a Hn).
  case_bool_decide as Hd; rewrite ?decide_True, ?decide_False by done.
  - cbn [fmap option_fmap option_map]. unfold close_gap, memmove.
    rewrite Nat.add_0_r, Nat.sub_0_r.
    replace (S i - 1) with i by lia.
    destruct (0 <? i) eqn:Hi; [|done].
    rewrite !andb_true_intro; [done|].
    split; apply Nat.leb_le; lia.
  - rewrite IH by (done || lia).
    destruct (list_find _ _) as [[k b]|]; [|done].
    cbn. by rewrite Nat.add_succ_r.
Qed.

End Loops.

(** [mxmlElementGetAttrName] stops at the first slot whose value is NULL or
    equal to the query; at a NULL value it has left defined behaviour. *)
Lemma get_name_loop_spec value i : ∀ attr arr,
  attr + i ≤ length arr →
  get_name_loop i attr arr value =
  match list_find (λ a, attr_value a = None ∨ attr_value a = Some value)
          (take i (drop attr arr)) with
  | Some (_, a) => if attr_value a is Some _ then Ok (attr_name a) else Undefined
  | None => Ok None
  end.
Proof.
  induction i as [|i IH]; intros attr arr Hlen; [done|].
  destruct (segment_cons i attr arr Hlen) as (a & Ha & Hseg).
  rewrite Hseg. cbn [get_name_loop list_find]. rewrite Ha.
  destruct (attr_value a) as [v|] eqn:Hv.
  - destruct (String.eqb_spec v value) as [->|Hne].
    + rewrite decide_True by auto. cbn. by rewrite Hv.
    + rewrite decide_False by (intros [?|?]; congruence).
      rewrite IH by lia. by destruct (list_find _ _) as [[]|].
  - rewrite decide_True by auto. cbn. by rewrite Hv.
Qed.

(** ** The public functions on an element node *)

Section Element.

Variable e : mxml_element_t.
Hypothesis He : wf e.

Lemma live_segment : take (num_attrs e) (drop 0 (attrs e)) = live e.
Proof. done. Qed.

Lemma GetAttrValue_elem name :
  mxmlElementGetAttrValue (elem e) (Some name) =
  Ok (list_find (named name) (live e) ≫= attr_value ∘ snd).
Proof.
  destruct He as [Hn Hl]. cbn.
  by rewrite get_value_loop_spec.
Qed.

Lemma DeleteAttr_elem name :
  mxmlElementDeleteAttr (elem e) (Some name) =
  Ok (elem (match list_find (named name) (live e) with
            | Some (k, _) => close_gap k (num_attrs e - k - 1) e
            | None => e
            end)).
Proof.
  destruct He as [Hn Hl]. cbn.
  rewrite delete_attr_loop_spec by done.
  rewrite live_segment. by destruct e.
Qed.

Lemma GetAttrName_elem value :
  mxmlElementGetAttrName (elem e) (Some value) =
  match list_find (λ a, attr_value a = None ∨ attr_value a = Some value) (live e) with
  | Some (_, a) => if attr_value a is Some _ then Ok (attr_name a) else Undefined
  | None => Ok None
  end.
Proof.
  destruct He as [Hn Hl]. cbn.
  by rewrite get_name_loop_spec.
Qed.

(** [mxml_set_attr], case by case. *)
Lemma set_attr_found name value s k a :
  list_find (named name) (live e) = Some (k, a) →
  mxml_set_attr (element_node e) name value s =
  Ok (0%Z,
      element_node (set_attrs (alter (set_value value) k (attrs e)) e),
      s, []).
Proof.
  intros Hf. destruct He as [Hn Hl].
  unfold mxml_set_attr, element_node, bind, lift. cbn [value_element].
  rewrite set_attr_loop_spec, live_segment, Hf by done. done.
Qed.

Lemma set_attr_growth_refused name value s :
  list_find (named name) (live e) = None →
  next_answer s = false →
  mxml_set_attr (element_node e) name value s =
  Ok ((-1)%Z, element_node e, tail s,
      [Alloc ArrayGrowth false; Report alloc_failure [name; element_name e]]).
Proof.
  intros Hf Hs. destruct He as [Hn Hl].
  unfold mxml_set_attr, element_node, bind, lift. cbn [value_element].
  rewrite set_attr_loop_spec, live_segment, Hf by done. cbn.
  destruct (num_attrs e =? 0); cbn; unfold malloc, realloc, bind, alloc;
    rewrite Hs; done.
Qed.

Lemma set_attr_name_refused name value s :
  list_find (named name) (live e) = None →
  next_answer s = true →
  next_answer (tail s) = false →
  mxml_set_attr (element_node e) name value s =
  Ok ((-1)%Z,
      element_node (set_attrs (alter (set_name None) (num_attrs e) (grown e)) e),
      tail (tail s),
      [Alloc ArrayGrowth true; Alloc NameCopy false;
       Report alloc_failure [name; element_name e]]).
Proof.
  intros Hf Hs Hs'. destruct He as [Hn Hl].
  unfold mxml_set_attr, element_node, bind, lift. cbn [value_element].
  rewrite set_attr_loop_spec, live_segment, Hf by done. cbn.
  unfold grown.
  destruct (num_attrs e =? 0); cbn;
    unfold malloc, realloc, strdup, bind, alloc; rewrite Hs; cbn;
    rewrite Hs'; done.
Qed.

Lemma set_attr_added name value s :
  list_find (named name) (live e) = None →
  next_answer s = true →
  next_answer (tail s) = true →
  mxml_set_attr (element_node e) name value s =
  Ok (0%Z,
      element_node
        (set_num_attrs (num_attrs e + 1)
           (set_attrs (alter (set_value value) (num_attrs e)
                         (alter (set_name (Some name)) (num_attrs e) (grown e))) e)),
      tail (tail s),
      [Alloc ArrayGrowth true; Alloc NameCopy true]).
Proof.
  intros Hf Hs Hs'. destruct He as [Hn Hl].
  unfold mxml_set_attr, element_node, bind, lift. cbn [value_element].
  rewrite set_attr_loop_spec, live_segment, Hf by done. cbn.
  unfold grown.
  destruct (num_attrs e =? 0); cbn;
    unfold malloc, realloc, strdup, bind, alloc; rewrite Hs; cbn;
    rewrite Hs'; done.
Qed.

End Element.

(** ** The slots in use after each kind of write *)

Lemma live_set_value e v k :
  k < num_attrs e →
  live (set_attrs (alter (set_value v) k (attrs e)) e) = alter (set_value v) k (live e).
Proof. intros Hk. unfold live. cbn. by rewrite take_alter_lt. Qed.

Lemma live_grown e :
  num_attrs e ≤ length (attrs e) →
  take (num_attrs e) (grown e) = live e.
Proof.
  intros Hn. unfold grown, live.
  destruct (Nat.eqb_spec (num_attrs e) 0) as [->|_]; [done|].
  rewrite take_resize_le by lia. by rewrite resize_le.
Qed.

Lemma length_grown e : length (grown e) = num_attrs e + 1.
Proof.
  unfold grown. destruct (Nat.eqb_spec (num_attrs e) 0) as [->|_]; [done|].
  by rewrite length_resize.
Qed.

Lemma live_name_refused e :
  num_attrs e ≤ length (attrs e) →
  live (set_attrs (alter (set_name None) (num_attrs e) (grown e)) e) = live e.
Proof.
  intros Hn. unfold live at 1. cbn.
  rewrite take_alter_ge by done. by apply live_grown.
Qed.

Lemma live_added e name v :
  num_attrs e ≤ length (attrs e) →
  live (set_num_attrs (num_attrs e + 1)
          (set_attrs (alter (set_value v) (num_attrs e)
                        (alter (set_name (Some name)) (num_attrs e) (grown e))) e))
  = live e ++ [ {| attr_name := Some name; attr_value := v |} ].
Proof.
  intros Hn. unfold live at 1. cbn.
  pose proof (length_grown e) as Hlen.
  destruct (lookup_lt_is_Some_2 (grown e) (num_attrs e)) as [a Ha]; [lia|].
  rewrite Nat.add_1_r.
  erewrite take_S_r.
  - rewrite !take_alter_ge by done. by rewrite live_grown.
  - rewrite !list_lookup_alter_eq, Ha. done.
Qed.

Lemma live_close_gap e k :
  k < num_attrs e →
  num_attrs e ≤ length (attrs e) →
  live (close_gap k (num_attrs e - k - 1) e) = delete k (live e).
Proof.
  intros Hk Hn. unfold live, close_gap.
  cbn [num_attrs attrs set_num_attrs set_attrs].
  rewrite delete_take_drop, take_take, Nat.min_l by lia.
  set (i := num_attrs e - k - 1).
  replace (drop (S k) (take (num_attrs e) (attrs e)))
    with (take i (drop (S k) (attrs e))).
  2:{ rewrite take_drop_commute. do 2 f_equal. lia. }
  destruct (Nat.ltb_spec 0 i) as [Hi|Hi].
  - rewrite app_assoc. apply take_app_length'.
    rewrite length_app, !length_take, length_drop. lia.
  - replace i with 0 by lia. rewrite take_0, app_nil_r.
    f_equal. lia.
Qed.

Lemma length_close_gap e k :
  k < num_attrs e →
  num_attrs e ≤ length (attrs e) →
  length (attrs (close_gap k (num_attrs e - k - 1) e)) = length (attrs e).
Proof.
  intros Hk Hn. unfold close_gap.
  cbn [num_attrs attrs set_num_attrs set_attrs].
  destruct (Nat.ltb_spec 0 (num_attrs e - k - 1)); [|done].
  rewrite !length_app, !length_take, !length_drop. lia.
Qed.

(** ** The invariant is kept *)

Lemma wf_no_attrs ename : wf (no_attrs ename).
Proof. split; cbn; [lia|constructor]. Qed.

Lemma find_named_lt name l k a :
  list_find (named name) l = Some (k, a) → k < length l ∧ l !! k = Some a ∧ named name a.
Proof.
  intros (Hk & Ha & _)%list_find_Some. split; [|done].
  by eapply lookup_lt_Some.
Qed.

Lemma find_named_live name e k a :
  list_find (named name) (live e) = Some (k, a) →
  k < num_attrs e ∧ live e !! k = Some a ∧ named name a.
Proof.
  intros (Hk & Ha & Hna)%find_named_lt. split; [|done].
  unfold live in Hk. rewrite length_take in Hk. lia.
Qed.

Lemma wf_found e name v k a :
  wf e → list_find (named name) (live e) = Some (k, a) →
  wf (set_attrs (alter (set_value v) k (attrs e)) e).
Proof.
  intros [Hn Hl] Hf. apply find_named_live in Hf as (Hk & _).
  split; [cbn; by rewrite length_alter|].
  rewrite live_set_value by lia.
  apply Forall_alter; [done|]. intros ? _. done.
Qed.

Lemma wf_name_refused e :
  wf e → wf (set_attrs (alter (set_name None) (num_attrs e) (grown e)) e).
Proof.
  intros [Hn Hl]. split.
  - cbn. rewrite length_alter, length_grown. lia.
  - by rewrite live_name_refused.
Qed.

Lemma wf_added e name v :
  wf e →
  wf (set_num_attrs (num_attrs e + 1)
        (set_attrs (alter (set_value v) (num_attrs e)
                      (alter (set_name (Some name)) (num_attrs e) (grown e))) e)).
Proof.
  intros [Hn Hl]. split.
  - cbn. rewrite !length_alter, length_grown. lia.
  - rewrite live_added by done. apply Forall_app. split; [done|].
    repeat constructor. by eexists.
Qed.

Lemma wf_close_gap e k :
  wf e → k < num_attrs e → wf (close_gap k (num_attrs e - k - 1) e).
Proof.
  intros [Hn Hl] Hk. split.
  - rewrite length_close_gap by done. cbn. lia.
  - rewrite live_close_gap by done.
    rewrite delete_take_drop. apply Forall_app.
    split; [by apply Forall_take|by apply Forall_drop].
Qed.

(** ** mxml_set_attr by cases *)

Lemma mxml_set_attr_cases e name v s :
  wf e →
  ∃ rc e' s' evs,
    mxml_set_attr (element_node e) name v s = Ok (rc, element_node e', s', evs) ∧
    set_attr_case e name v s rc e' s' evs.
Proof.
  intros He.
  destruct (list_find (named name) (live e)) as [[k a]|] eqn:Hf.
  - eexists _, _, _, _. split; [by eapply set_attr_found|by econstructor].
  - destruct (next_answer s) eqn:Hs; [destruct (next_answer (tail s)) eqn:Hs'|].
    + eexists _, _, _, _. split; [by eapply set_attr_added|by constructor].
    + eexists _, _, _, _. split; [by eapply set_attr_name_refused|by constructor].
    + eexists _, _, _, _. split; [by eapply set_attr_growth_refused|by constructor].
Qed.

Lemma SetAttr_elem e name value s :
  mxmlElementSetAttr (elem e) (Some name) value s =
  match mxml_set_attr (element_node e) name (copied value s) (after_copy value s) with
  | Undefined => Undefined
  | Ok (r, s', evs) => Ok ((Some r.1, Some r.2), s', copy_events value s ++ evs)
  end.
Proof.
  unfold mxmlElementSetAttr, elem. cbn [element_node node_type is_element negb].
  destruct value as [v|]; unfold bind, strdup, alloc, ret; cbn.
  - destruct (mxml_set_attr _ _ _ _) as [|[[r s'] evs]]; [done|].
    by rewrite app_nil_r.
  - destruct (mxml_set_attr _ _ _ _) as [|[[r s'] evs]]; [done|].
    by rewrite app_nil_r.
Qed.

Lemma SetAttr_cases e name value s :
  wf e →
  ∃ rc e' s' evs,
    mxmlElementSetAttr (elem e) (Some name) value s =
      Ok ((Some rc, elem e'), s', copy_events value s ++ evs) ∧
    set_attr_case e name (copied value s) (after_copy value s) rc e' s' evs.
Proof.
  intros He.
  destruct (mxml_set_attr_cases e name (copied value s) (after_copy value s) He)
    as (rc & e' & s' & evs & Hrun & Hcase).
  exists rc, e', s', evs. split; [|done].
  by rewrite SetAttr_elem, Hrun.
Qed.

Lemma SetAttrf_elem {va_list} (vsnprintf : string → va_list → string)
  e name format ap s :
  mxmlElementSetAttrf vsnprintf (elem e) (Some name) (Some format) ap s =
  if next_answer s
  then match mxml_set_attr (element_node e) name (Some (vsnprintf format ap)) (tail s) with
       | Undefined => Undefined
       | Ok (r, s', evs) => Ok ((Some r.1, Some r.2), s', Alloc FormatValue true :: evs)
       end
  else Ok ((None, elem e), tail s,
           [Alloc FormatValue false; Report alloc_failure [name; element_name e]]).
Proof.
  unfold mxmlElementSetAttrf, elem. cbn [element_node node_type is_element negb].
  unfold _mxml_vstrdupf, bind, strdup, alloc, ret, mxml_error. cbn.
  destruct (next_answer s); [|done].
  destruct (mxml_set_attr _ _ _ _) as [|[[r s'] evs]]; [done|].
  by rewrite app_nil_r.
Qed.

(** What each case leaves visible. *)
Lemma set_attr_case_wf e name v s rc e' s' evs :
  wf e → set_attr_case e name v s rc e' s' evs → wf e'.
Proof.
  intros He Hc. destruct Hc.
  - by eapply wf_found.
  - done.
  - by apply wf_name_refused.
  - by apply wf_added.
Qed.

Lemma find_named_alter name v l k a :
  list_find (named name) l = Some (k, a) →
  list_find (named name) (alter (set_value v) k l) = Some (k, set_value v a).
Proof.
  intros (Hk & Ha & Hlt)%list_find_Some. apply list_find_Some.
  split_and!.
  - by rewrite list_lookup_alter_eq, Hk.
  - done.
  - intros j b Hj Hjk. rewrite list_lookup_alter_ne in Hj by lia. eauto.
Qed.

Lemma find_named_snoc name v l :
  list_find (named name) l = None →
  list_find (named name) (l ++ [ {| attr_name := Some name; attr_value := v |} ])
  = Some (length l, {| attr_name := Some name; attr_value := v |}).
Proof.
  intros Hn. apply list_find_Some. split_and!.
  - by rewrite lookup_app_r, Nat.sub_diag.
  - done.
  - intros j b Hj Hjl. rewrite lookup_app_l in Hj by done.
    apply list_find_None in Hn.
    by eapply Forall_lookup_1 in Hn.
Qed.

Lemma set_attr_case_ok e name v s e' s' evs :
  wf e → set_attr_case e name v s 0%Z e' s' evs →
  ∃ k a, list_find (named name) (live e') = Some (k, a) ∧ attr_value a = v.
Proof.
  intros [Hn Hl] Hc. inversion Hc as [k a Hf| | |Hf Hs Hs']; subst.
  - pose proof Hf as (Hk & _)%find_named_live.
    rewrite live_set_value by lia.
    eexists _, _. split; [by apply find_named_alter|done].
  - rewrite live_added by done.
    eexists _, _. split; [by apply find_named_snoc|done].
Qed.

Lemma set_attr_case_failed e name v s e' s' evs :
  wf e → set_attr_case e name v s (-1)%Z e' s' evs →
  num_attrs e' = num_attrs e ∧ live e' = live e ∧
  Report alloc_failure [name; element_name e] ∈ evs.
Proof.
  intros [Hn Hl] Hc. inversion Hc; subst.
  - split_and!; [done..|]. apply list_elem_of_In. cbn. auto.
  - split_and!; [done|by apply live_name_refused|]. apply list_elem_of_In. cbn. auto.
Qed.

(** ** Events of the copy of the value *)

Lemma copy_events_no_report value s f args :
  ¬ In (Report f args) (copy_events value s).
Proof. destruct value; cbn; intros H; intuition congruence. Qed.

Lemma copy_events_only_value value s site b :
  In (Alloc site b) (copy_events value s) → site = ValueCopy ∧ b = next_answer s.
Proof. destruct value; cbn; intros H; intuition congruence. Qed.

Lemma GetAttrValue_live e e' n :
  wf e → wf e' → live e' = live e →
  mxmlElementGetAttrValue (elem e') n = mxmlElementGetAttrValue (elem e) n.
Proof.
  intros He He' Hl. destruct n as [n|]; [|done].
  by rewrite !GetAttrValue_elem, Hl.
Qed.

(** On an element that satisfies the invariant [mxmlElementSetAttr] has
    defined behaviour, whatever the allocator answers. *)
Lemma SetAttr_defined e name value s :
  element_ok e = true →
  ∃ st e' s' evs,
    mxmlElementSetAttr (elem e) name value s = Ok ((st, elem e'), s', evs) ∧
    element_ok e' = true.
Proof.
  intros He. destruct name as [name|].
  - apply element_ok_wf in He.
    destruct (SetAttr_cases e name value s He) as (rc & e' & s' & evs & Hrun & Hc).
    eexists _, e', _, _. split; [done|].
    apply element_ok_wf. by eapply set_attr_case_wf.
  - by eexists None, e, s, [].
Qed.

Lemma elem_inj e e' : elem e = elem e' → e = e'.
Proof. by intros [= ->]. Qed.

Lemma copied_granted value s :
  ¬ In (Alloc ValueCopy false) (copy_events value s) → copied value s = value.
Proof.
  destruct value as [v|]; cbn; [|done].
  destruct (next_answer s); [done|]. tauto.
Qed.

(** ** Names under the writes *)

Lemma names_set_value e v k :
  k < num_attrs e →
  names (set_attrs (alter (set_value v) k (attrs e)) e) = names e.
Proof.
  intros Hk. unfold names. rewrite live_set_value by done.
  rewrite (list_fmap_alter _ (set_value v) id) by (by apply Forall_true).
  by apply list_alter_id.
Qed.

Lemma names_close_gap e k :
  k < num_attrs e → num_attrs e ≤ length (attrs e) →
  names (close_gap k (num_attrs e - k - 1) e) = delete k (names e).
Proof.
  intros Hk Hn. unfold names.
  by rewrite live_close_gap, list_fmap_delete.
Qed.

Lemma find_named_None name l :
  list_find (named name) l = None → Some name ∉ attr_name <$> l.
Proof.
  intros Hf%list_find_None (a & Ha & Hin)%list_elem_of_fmap.
  rewrite Forall_forall in Hf. by eapply Hf.
Qed.

Lemma set_attr_case_NoDup e name v s rc e' s' evs :
  wf e → NoDup (names e) → set_attr_case e name v s rc e' s' evs → NoDup (names e').
Proof.
  intros [Hn Hl] Hnd Hc. destruct Hc as [k a Hf|Hf Hs|Hf Hs Hs'|Hf Hs Hs'].
  - apply find_named_live in Hf as (Hk & _).
    by rewrite names_set_value by lia.
  - done.
  - unfold names. by rewrite live_name_refused.
  - unfold names. rewrite live_added, fmap_app by done.
    apply NoDup_app. split_and!; [done| |apply NoDup_singleton].
    intros x Hx ->%list_elem_of_singleton. cbn in Hx.
    by apply find_named_None in Hf.
Qed.

(** ** Values in the slots *)

Lemma find_value_valued value l :
  Forall (λ a, is_Some (attr_value a)) l →
  list_find (λ a, attr_value a = None ∨ attr_value a = Some value) l
  = list_find (λ a, attr_value a = Some value) l.
Proof.
  induction 1 as [|a l [v Hv] _ IH]; [done|]. cbn. rewrite IH.
  destruct (decide (attr_value a = Some value)) as [Heq|Hne].
  - by rewrite decide_True by auto.
  - by rewrite decide_False by (intros [?|?]; congruence).
Qed.

(** * The claims *)

(** ** C1: a value set is the value read *)

(** When no copy of the value is refused, a successful [mxmlElementSetAttr]
    is read back by [mxmlElementGetAttrValue]. *)
Lemma set_then_get e name value s node' s' evs :
  element_ok e = true →
  mxmlElementSetAttr (elem e) (Some name) value s = Ok ((Some 0%Z, node'), s', evs) →
  ¬ In (Alloc ValueCopy false) evs →
  mxmlElementGetAttrValue node' (Some name) = Ok value.
Proof.
  intros He%element_ok_wf Hrun Hcopy.
  destruct (SetAttr_cases e name value s He) as (rc & e' & s1 & evs1 & Hrun' & Hc).
  rewrite Hrun' in Hrun. injection Hrun as -> <- <- <-.
  destruct (set_attr_case_ok _ _ _ _ _ _ _ He Hc) as (k & a & Hf & Ha).
  rewrite GetAttrValue_elem, Hf by (by eapply set_attr_case_wf).
  cbn. rewrite Ha. f_equal. apply copied_granted.
  intros Hin. apply Hcopy, in_or_app. by left.
Qed.

(** C1.  A successful [mxmlElementSetAttr] is not always read back: when the
    copy of the value is refused, [mxmlElementSetAttr] does not test the
    result of [strdup(value)], [mxml_set_attr] stores the NULL and returns 0,
    and [mxmlElementGetAttrValue] returns NULL instead of the value. *)
Lemma refused_value_copy_reads_null :
  mxmlElementSetAttr (elem (no_attrs "img")) (Some "src") (Some "a.png") [false]
  = Ok ((Some 0%Z, elem (img_src None)), [],
        [Alloc ValueCopy false; Alloc ArrayGrowth true; Alloc NameCopy true]) ∧
  mxmlElementGetAttrValue (elem (img_src None)) (Some "src") = Ok None.
Proof. split; reflexivity. Qed.

(** ** C2: refused allocations are reported *)

(** A refused growth of the array or a refused copy of the name is reported
    with the attribute and the element, and the status is -1. *)
Lemma refused_growth_or_name_is_reported e name value s st node' s' evs :
  element_ok e = true →
  mxmlElementSetAttr (elem e) (Some name) value s = Ok ((st, node'), s', evs) →
  In (Alloc ArrayGrowth false) evs ∨ In (Alloc NameCopy false) evs →
  st = Some (-1)%Z ∧ In (Report alloc_failure [name; element_name e]) evs.
Proof.
  intros He%element_ok_wf Hrun Hfail.
  destruct (SetAttr_cases e name value s He) as (rc & e' & s1 & evs1 & Hrun' & Hc).
  rewrite Hrun' in Hrun. injection Hrun as <- <- <- <-.
  assert (Hev : In (Alloc ArrayGrowth false) evs1 ∨ In (Alloc NameCopy false) evs1).
  { destruct Hfail as [H|H]; apply in_app_or in H as [H|H]; auto;
      by apply copy_events_only_value in H as [? _]. }
  assert (Hrc : rc = (-1)%Z).
  { destruct Hc; [|done|done|]; cbn in Hev; intuition congruence. }
  subst rc. destruct (set_attr_case_failed _ _ _ _ _ _ _ He Hc) as (_ & _ & Hrep).
  split; [done|]. apply in_or_app. right. by apply list_elem_of_In.
Qed.

(** C2.  A refused copy of the value is not reported: when [strdup(value)]
    is refused [mxmlElementSetAttr] reports nothing and the status is 0. *)
Lemma refused_value_copy_is_silent :
  mxmlElementSetAttr (elem (no_attrs "img")) (Some "src") (Some "a.png") [false]
  = Ok ((Some 0%Z, elem (img_src None)), [],
        [Alloc ValueCopy false; Alloc ArrayGrowth true; Alloc NameCopy true]) ∧
  reports [Alloc ValueCopy false; Alloc ArrayGrowth true; Alloc NameCopy true] = [].
Proof. split; reflexivity. Qed.

(** ** C3: a refused allocation leaves the store as it was *)

(** C3.  When the growth of the array or the copy of the name is refused
    during [mxmlElementSetAttr], the node afterwards has the same attribute
    count and the same slots in use as before, and
    [mxmlElementGetAttrValue] answers every name as it did before. *)
Theorem set_failure_leaves_store e name value s st node' s' evs :
  element_ok e = true →
  mxmlElementSetAttr (elem e) name value s = Ok ((st, node'), s', evs) →
  In (Alloc ArrayGrowth false) evs ∨ In (Alloc NameCopy false) evs →
  ∃ e', node' = elem e' ∧
        num_attrs e' = num_attrs e ∧
        live e' = live e ∧
        ∀ n, mxmlElementGetAttrValue (elem e') n = mxmlElementGetAttrValue (elem e) n.
Proof.
  intros He%element_ok_wf Hrun Hfail.
  destruct name as [name|]; [|cbn in Hrun; injection Hrun as <- <- <- <-; by destruct Hfail].
  destruct (SetAttr_cases e name value s He) as (rc & e' & s1 & evs1 & Hrun' & Hc).
  rewrite Hrun' in Hrun. injection Hrun as <- <- <- <-.
  assert (Hev : In (Alloc ArrayGrowth false) evs1 ∨ In (Alloc NameCopy false) evs1).
  { destruct Hfail as [H|H]; apply in_app_or in H as [H|H]; auto;
      by apply copy_events_only_value in H as [? _]. }
  pose proof (set_attr_case_wf _ _ _ _ _ _ _ _ He Hc) as He'.
  assert (Hrc : rc = (-1)%Z).
  { destruct Hc; [|done|done|]; cbn in Hev; intuition congruence. }
  subst rc. destruct (set_attr_case_failed _ _ _ _ _ _ _ He Hc) as (Hn & Hl & _).
  exists e'. split_and!; [done..|].
  intros n. by apply GetAttrValue_live.
Qed.

Lemma set_failure_leaves_store_witness :
  ∃ e', elem (set_attrs [ {| attr_name := Some "alt"; attr_value := Some "pic" |};
                          {| attr_name := None; attr_value := None |} ] img_alt) = elem e' ∧
        num_attrs e' = num_attrs img_alt ∧
        live e' = live img_alt ∧
        ∀ n, mxmlElementGetAttrValue (elem e') n = mxmlElementGetAttrValue (elem img_alt) n.
Proof.
  apply (set_failure_leaves_store img_alt (Some "src") (Some "a.png") [true; true; false]
           (Some (-1)%Z) _ [] 
           [Alloc ValueCopy true; Alloc ArrayGrowth true; Alloc NameCopy false;
            Report alloc_failure ["src"; "img"]]).
  - reflexivity.
  - reflexivity.
  - right. simpl. auto.
Defined.

(** ** C4: deletion *)

(** C4.  [mxmlElementDeleteAttr] with a name that the element holds leaves
    one slot less in use: exactly the first slot of that name is gone and
    the others keep their order.  With a name the element does not hold it
    leaves the node as it was.  In both cases no allocation is asked for and
    nothing is reported. *)
Theorem delete_by_name {va_list} (vsnprintf : string → va_list → string) e name s :
  element_ok e = true →
  match list_find (named name) (live e) with
  | Some (k, _) =>
      ∃ e', mxmlElementDeleteAttr (elem e) (Some name) = Ok (elem e') ∧
            exec vsnprintf (DeleteByName (Some name)) (elem e) s
              = Ok ((RVoid, elem e'), s, []) ∧
            S (num_attrs e') = num_attrs e ∧
            live e' = delete k (live e)
  | None =>
      mxmlElementDeleteAttr (elem e) (Some name) = Ok (elem e) ∧
      exec vsnprintf (DeleteByName (Some name)) (elem e) s = Ok ((RVoid, elem e), s, [])
  end.
Proof.
  intros He%element_ok_wf. pose proof (DeleteAttr_elem e He name) as Hdel.
  unfold exec, bind, lift, ret. rewrite Hdel.
  destruct (list_find (named name) (live e)) as [[k a]|] eqn:Hf; [|done].
  apply find_named_live in Hf as (Hk & _). destruct He as [Hn Hl].
  eexists. split_and!; [done..| |].
  - cbn. lia.
  - apply live_close_gap; lia.
Qed.

Lemma delete_by_name_witness :
  ∃ e', mxmlElementDeleteAttr (elem img_src_alt) (Some "src") = Ok (elem e') ∧
        exec verbatim (DeleteByName (Some "src")) (elem img_src_alt) []
          = Ok ((RVoid, elem e'), [], []) ∧
        S (num_attrs e') = num_attrs img_src_alt ∧
        live e' = delete 0 (live img_src_alt).
Proof.
  apply (delete_by_name verbatim img_src_alt "src" []).
  reflexivity.
Defined.

(** ** C5: overwriting *)

(** Two successful calls with the same name on an element with distinct
    names: the second call finds the slot the first call left, keeps its
    position, the names and the count, and no other slot carries the name.
    The slot holds the second value unless its copy was refused. *)
Lemma overwrite e name v1 v2 s1 s2 e1 s1' evs1 e2 s2' evs2 :
  element_ok e = true →
  NoDup (names e) →
  mxmlElementSetAttr (elem e) (Some name) v1 s1 = Ok ((Some 0%Z, elem e1), s1', evs1) →
  mxmlElementSetAttr (elem e1) (Some name) v2 s2 = Ok ((Some 0%Z, elem e2), s2', evs2) →
  ∃ k a,
    list_find (named name) (live e1) = Some (k, a) ∧
    list_find (named name) (live e2) = Some (k, set_value (copied v2 s2) a) ∧
    (∀ j b, live e2 !! j = Some b → named name b → j = k) ∧
    names e2 = names e1 ∧
    num_attrs e2 = num_attrs e1 ∧
    (¬ In (Alloc ValueCopy false) evs2 → copied v2 s2 = v2).
Proof.
  intros He%element_ok_wf Hnd Hrun1 Hrun2.
  destruct (SetAttr_cases e name v1 s1 He) as (rc & e' & s1a & evs1a & Hrun' & Hc1).
  rewrite Hrun' in Hrun1. injection Hrun1 as -> -> <- <-.
  pose proof (set_attr_case_wf _ _ _ _ _ _ _ _ He Hc1) as He1.
  pose proof (set_attr_case_NoDup _ _ _ _ _ _ _ _ He Hnd Hc1) as Hnd1.
  destruct (set_attr_case_ok _ _ _ _ _ _ _ He Hc1) as (k & a & Hf1 & _).
  destruct (SetAttr_cases e1 name v2 s2 He1) as (rc & e' & s2a & evs2a & Hrun'' & Hc2).
  rewrite Hrun'' in Hrun2. injection Hrun2 as -> -> <- <-.
  inversion Hc2 as [k' a' Hf'| | |]; subst; try congruence.
  rewrite Hf1 in Hf'. injection Hf' as <- <-.
  pose proof Hf1 as (Hk & Hka & Hna)%find_named_live.
  assert (Hnames : names (set_attrs (alter (set_value (copied v2 s2)) k (attrs e1)) e1)
                   = names e1) by (apply names_set_value; lia).
  exists k, a. split_and!; [done| | |done|done|].
  - rewrite live_set_value by lia. by apply find_named_alter.
  - intros j b Hj Hb.
    assert (Hnj : names e1 !! j = Some (Some name)).
    { rewrite <- Hnames. unfold names. rewrite list_lookup_fmap, Hj. cbn. by rewrite Hb. }
    assert (Hnk : names e1 !! k = Some (Some name)).
    { unfold names. rewrite list_lookup_fmap, Hka. cbn. by rewrite Hna. }
    by eapply NoDup_lookup.
  - intros Hin. apply copied_granted. rewrite app_nil_r in Hin. done.
Qed.

(** C5.  Two successful calls with one name do not always leave the second
    value: when the copy of the second value is refused both calls return 0,
    the slot keeps its place, and its value is NULL. *)
Lemma refused_second_copy_overwrites_with_null :
  mxmlElementSetAttr (elem (no_attrs "img")) (Some "src") (Some "a.png") []
  = Ok ((Some 0%Z, elem (img_src (Some "a.png"))), [],
        [Alloc ValueCopy true; Alloc ArrayGrowth true; Alloc NameCopy true]) ∧
  mxmlElementSetAttr (elem (img_src (Some "a.png"))) (Some "src") (Some "b.png") [false]
  = Ok ((Some 0%Z, elem (img_src None)), [], [Alloc ValueCopy false]) ∧
  mxmlElementGetAttrValue (elem (img_src None)) (Some "src") = Ok None.
Proof. repeat split; reflexivity. Qed.

(** ** C6: lookup by value *)

(** On an element all of whose slots in use have a value,
    [mxmlElementGetAttrName] returns the name of the first slot whose value
    is the query, NULL when there is none. *)
Lemma get_name_first_match e value :
  element_ok e = true →
  Forall (λ a, is_Some (attr_value a)) (live e) →
  mxmlElementGetAttrName (elem e) (Some value)
  = Ok (list_find (λ a, attr_value a = Some value) (live e) ≫= attr_name ∘ snd).
Proof.
  intros He%element_ok_wf Hv.
  rewrite GetAttrName_elem, find_value_valued by done.
  destruct (list_find _ _) as [[k a]|] eqn:Hf; [|done].
  apply list_find_Some in Hf as (_ & -> & _). done.
Qed.

(** C6.  A slot without a value is not passed over: [mxmlElementSetAttr]
    with a NULL value stores such a slot, and [mxmlElementGetAttrName] hands
    its NULL to [strcmp], which is undefined, instead of going on. *)
Lemma get_name_null_value_undefined :
  mxmlElementSetAttr (elem (no_attrs "img")) (Some "src") None []
  = Ok ((Some 0%Z, elem (img_src None)), [],
        [Alloc ArrayGrowth true; Alloc NameCopy true]) ∧
  mxmlElementGetAttrName (elem (img_src None)) (Some "pic") = Undefined.
Proof. split; reflexivity. Qed.

(** ** C7: the range check *)

(** C7, as the code has it.  A call on a NULL node, on a node that is not an
    element, or with a NULL name (a NULL value for [mxmlElementGetAttrName],
    a NULL name or format for [mxmlElementSetAttrf]) returns the neutral
    result, leaves the node and the allocator untouched and causes no event:
    no allocation, no report. *)
Theorem rejected_call_is_silent {va_list} (vsnprintf : string → va_list → string)
  (c : call va_list) node s :
  not_an_element node = true ∨ lacks_argument c = true →
  exec vsnprintf c node s = Ok ((neutral c, node), s, []).
Proof.
  intros [Hnode|Harg].
  - destruct node as [nd|]; cbn in Hnode.
    + destruct nd as [ty el]. cbn in Hnode. destruct ty; [done|].
      by destruct c.
    + by destruct c.
  - destruct node as [[ty el]|]; [destruct ty|];
      by destruct c as [[?|]|[?|]|[?|] ?|[?|] [?|] ?|[?|]].
Qed.

Lemma rejected_call_is_silent_witness :
  exec verbatim (SetValue None (Some "a.png")) (elem (no_attrs "img")) [false]
  = Ok ((RStatus None, elem (no_attrs "img")), [false], []).
Proof.
  apply (rejected_call_is_silent verbatim
           (SetValue None (Some "a.png")) (elem (no_attrs "img")) [false]).
  right. reflexivity.
Defined.

(** C7, as stated, fails for the empty name: the range check tests the name
    pointer only, so [mxmlElementSetAttr] with an empty name allocates and
    stores a slot. *)
Lemma empty_name_is_stored :
  exec verbatim (SetValue (Some EmptyString) (Some "v")) (elem (no_attrs "img")) []
  = Ok ((RStatus (Some 0%Z),
         elem {| element_name := "img"; num_attrs := 1;
                 attrs := [ {| attr_name := Some EmptyString; attr_value := Some "v" |} ] |}),
        [], [Alloc ValueCopy true; Alloc ArrayGrowth true; Alloc NameCopy true]) ∧
  exec verbatim (SetValue (Some EmptyString) (Some "v")) (elem (no_attrs "img")) []
  ≠ Ok ((neutral (@SetValue unit (Some EmptyString) (Some "v")), elem (no_attrs "img")), [], []).
Proof. split; [reflexivity|discriminate]. Qed.

(** ** C8: mxmlElementSetAttrf against mxmlElementSetAttr *)

(** C8.  When the buffer of the composed value is refused,
    [mxmlElementSetAttrf] makes exactly one report and returns the node as
    it was.  When the composition yields the string [S], status, node,
    allocator and reports are those of [mxmlElementSetAttr] called with the
    value [S]. *)
Theorem set_formatted_as_set_value {va_list} (vsnprintf : string → va_list → string)
  e name format ap s :
  if next_answer s
  then effect (mxmlElementSetAttrf vsnprintf (elem e) (Some name) (Some format) ap s)
       = effect (mxmlElementSetAttr (elem e) (Some name) (Some (vsnprintf format ap)) s)
  else mxmlElementSetAttrf vsnprintf (elem e) (Some name) (Some format) ap s
       = Ok ((None, elem e), tail s,
             [Alloc FormatValue false; Report alloc_failure [name; element_name e]]).
Proof.
  rewrite SetAttrf_elem, SetAttr_elem. unfold copied, after_copy, copy_events.
  destruct (next_answer s); [|done].
  by destruct (mxml_set_attr _ _ _ _) as [|[[r s'] evs]].
Qed.

(** ** C9: names stay distinct *)

(** C9.  The names do not stay distinct after every call, because one call
    need not leave an element at all: on an element with pairwise distinct
    names that holds an attribute without a value (what
    [mxmlElementSetAttr] with a NULL value stores), [mxmlElementGetAttrName]
    hands the NULL value to [strcmp] and has undefined behaviour. *)
Lemma get_name_call_on_valueless_undefined :
  mxmlElementSetAttr (elem (no_attrs "img")) (Some "src") None []
  = Ok ((Some 0%Z, elem (img_src None)), [],
        [Alloc ArrayGrowth true; Alloc NameCopy true]) ∧
  element_ok (img_src None) = true ∧
  NoDup (names (img_src None)) ∧
  exec verbatim (GetNameByValue (Some "pic")) (elem (img_src None)) [] = Undefined.
Proof.
  split_and!; [reflexivity..| |reflexivity].
  apply (bool_decide_unpack (NoDup (names (img_src None)))). vm_compute. exact I.
Qed.

(** ** C10: setting a name the element holds *)

(** C10.  When the element already holds a slot named [name],
    [mxmlElementSetAttr] returns success and reports nothing, whatever the
    allocator answers.  The count and every other slot in use stay as they
    are; the first slot of that name keeps the name and holds a NULL value
    when the copy of the value is refused, the value asked for otherwise. *)
Theorem set_existing_never_fails e name value s k a :
  element_ok e = true →
  list_find (named name) (live e) = Some (k, a) →
  ∃ e' s' evs,
    mxmlElementSetAttr (elem e) (Some name) value s = Ok ((Some 0%Z, elem e'), s', evs) ∧
    (∀ f args, ¬ In (Report f args) evs) ∧
    num_attrs e' = num_attrs e ∧
    length (live e') = length (live e) ∧
    (∀ j, j ≠ k → live e' !! j = live e !! j) ∧
    (In (Alloc ValueCopy false) evs →
     live e' !! k = Some {| attr_name := Some name; attr_value := None |}) ∧
    (¬ In (Alloc ValueCopy false) evs →
     live e' !! k = Some {| attr_name := Some name; attr_value := value |}).
Proof.
  intros He%element_ok_wf Hf.
  destruct (SetAttr_cases e name value s He) as (rc & e' & s1 & evs1 & Hrun & Hc).
  inversion Hc as [k' a' Hf'| | |]; subst; try congruence.
  rewrite Hf in Hf'. injection Hf' as <- <-.
  eexists _, _, _. split; [exact Hrun|]. rewrite app_nil_r.
  apply find_named_live in Hf as (Hk & Hka & Hna).
  rewrite live_set_value by lia.
  assert (Hslot : ∀ v, alter (set_value v) k (live e) !! k
                       = Some {| attr_name := Some name; attr_value := v |}).
  { intros v. rewrite list_lookup_alter_eq, Hka. cbn. unfold set_value. by rewrite Hna. }
  split_and!.
  - intros f args. apply copy_events_no_report.
  - done.
  - apply length_alter.
  - intros j Hj. by apply list_lookup_alter_ne.
  - intros Hin. rewrite Hslot. do 2 f_equal.
    destruct value as [v|]; cbn in Hin |- *; [|done].
    destruct (next_answer s); [intuition congruence|done].
  - intros Hin. rewrite Hslot. do 2 f_equal.
    destruct value as [v|]; cbn in Hin |- *; [|done].
    destruct (next_answer s); [done|]. tauto.
Qed.

Lemma set_existing_never_fails_witness :
  ∃ e' s' evs,
    mxmlElementSetAttr (elem (img_src (Some "a.png"))) (Some "src") (Some "b.png") [false]
      = Ok ((Some 0%Z, elem e'), s', evs) ∧
    (∀ f args, ¬ In (Report f args) evs) ∧
    num_attrs e' = num_attrs (img_src (Some "a.png")) ∧
    length (live e') = length (live (img_src (Some "a.png"))) ∧
    (∀ j, j ≠ 0 → live e' !! j = live (img_src (Some "a.png")) !! j) ∧
    (In (Alloc ValueCopy false) evs →
     live e' !! 0 = Some {| attr_name := Some "src"; attr_value := None |}) ∧
    (¬ In (Alloc ValueCopy false) evs →
     live e' !! 0 = Some {| attr_name := Some "src"; attr_value := Some "b.png" |}).
Proof.
  apply (set_existing_never_fails (img_src (Some "a.png")) "src" (Some "b.png") [false] 0
           {| attr_name := Some "src"; attr_value := Some "a.png" |}).
  - reflexivity.
  - reflexivity.
Defined.

(** * Further properties of the code *)

(** ** Lookups *)

Lemma bind_shifted {A} (f : nat * mxml_attr_t → option A) (r : option (nat * mxml_attr_t)) :
  (∀ k a, f (S k, a) = f (k, a)) →
  (prod_map S id <$> r) ≫= f = r ≫= f.
Proof. intros Hf. destruct r as [[k a]|]; [apply Hf|done]. Qed.

Lemma find_named_first name l k a :
  l !! k = Some a → named name a →
  (∀ j b, j < k → l !! j = Some b → ¬ named name b) →
  list_find (named name) l = Some (k, a).
Proof.
  intros Hk Ha Hlt. apply list_find_Some. split_and!; [done..|]. eauto.
Qed.

Lemma find_named_absent name l :
  (∀ a, a ∈ l → ¬ named name a) → list_find (named name) l = None.
Proof. intros H. by apply list_find_None, Forall_forall. Qed.

(** X1.  [mxmlElementGetAttrValue] returns the value of the first slot in
    use that carries the name, and NULL when no slot in use carries it. *)
Theorem get_value_first_match e name :
  element_ok e = true →
  (∀ k a, live e !! k = Some a → named name a →
          (∀ j b, j < k → live e !! j = Some b → ¬ named name b) →
          mxmlElementGetAttrValue (elem e) (Some name) = Ok (attr_value a)) ∧
  ((∀ a, a ∈ live e → ¬ named name a) →
   mxmlElementGetAttrValue (elem e) (Some name) = Ok None).
Proof.
  intros He%element_ok_wf. rewrite GetAttrValue_elem by done. split.
  - intros k a Hk Ha Hlt. by rewrite (find_named_first name _ k a).
  - intros Hno. by rewrite find_named_absent.
Qed.

Lemma get_value_first_match_witness :
  (∀ k a, live img_src_alt !! k = Some a → named "alt" a →
          (∀ j b, j < k → live img_src_alt !! j = Some b → ¬ named "alt" b) →
          mxmlElementGetAttrValue (elem img_src_alt) (Some "alt") = Ok (attr_value a)) ∧
  ((∀ a, a ∈ live img_src_alt → ¬ named "alt" a) →
   mxmlElementGetAttrValue (elem img_src_alt) (Some "alt") = Ok None).
Proof. apply (get_value_first_match img_src_alt "alt"). reflexivity. Defined.

(** X2.  A NULL from [mxmlElementGetAttrValue] does not tell a missing
    attribute from one stored without a value: the result is NULL exactly
    when no slot in use carries the name or the first one that does has a
    NULL value. *)
Theorem get_value_null_iff e name :
  element_ok e = true →
  mxmlElementGetAttrValue (elem e) (Some name) = Ok None ↔
  list_find (named name) (live e) = None ∨
  ∃ k a, list_find (named name) (live e) = Some (k, a) ∧ attr_value a = None.
Proof.
  intros He%element_ok_wf. rewrite GetAttrValue_elem by done.
  destruct (list_find (named name) (live e)) as [[k a]|]; cbn.
  - split.
    + intros [= Hv]. right. eauto.
    + intros [?|(k' & a' & [= <- <-] & ->)]; done.
  - split; auto.
Qed.

Lemma get_value_null_iff_witness :
  mxmlElementGetAttrValue (elem (img_src None)) (Some "src") = Ok None ↔
  list_find (named "src") (live (img_src None)) = None ∨
  ∃ k a, list_find (named "src") (live (img_src None)) = Some (k, a) ∧ attr_value a = None.
Proof. apply (get_value_null_iff (img_src None) "src"). reflexivity. Defined.

(** X3.  [mxmlElementGetAttrName] walks the slots in use until one has the
    queried value or a NULL value.  It returns the name of the first slot
    with the queried value if every slot before it has another value,
    NULL if every slot in use has another value, and has undefined behaviour
    if it meets a slot with a NULL value first. *)
Theorem get_name_by_value_cases e value :
  element_ok e = true →
  (∀ k a, live e !! k = Some a → attr_value a = Some value →
          (∀ j b, j < k → live e !! j = Some b →
                  ∃ v, attr_value b = Some v ∧ v ≠ value) →
          mxmlElementGetAttrName (elem e) (Some value) = Ok (attr_name a)) ∧
  ((∀ b, b ∈ live e → ∃ v, attr_value b = Some v ∧ v ≠ value) →
   mxmlElementGetAttrName (elem e) (Some value) = Ok None) ∧
  (∀ k a, live e !! k = Some a → attr_value a = None →
          (∀ j b, j < k → live e !! j = Some b →
                  ∃ v, attr_value b = Some v ∧ v ≠ value) →
          mxmlElementGetAttrName (elem e) (Some value) = Undefined).
Proof.
  intros He%element_ok_wf. rewrite GetAttrName_elem by done.
  assert (Hstop : ∀ k a, live e !! k = Some a →
            attr_value a = None ∨ attr_value a = Some value →
            (∀ j b, j < k → live e !! j = Some b →
                    ∃ v, attr_value b = Some v ∧ v ≠ value) →
            list_find (λ a, attr_value a = None ∨ attr_value a = Some value) (live e)
            = Some (k, a)).
  { intros k a Hk Ha Hlt. apply list_find_Some. split_and!; [done..|].
    intros j b Hj Hjk [Hb|Hb]; destruct (Hlt j b Hjk Hj) as (v & Hv & Hne); congruence. }
  split_and!.
  - intros k a Hk Ha Hlt. rewrite (Hstop k a) by auto. by rewrite Ha.
  - intros Hall.
    assert (list_find (λ a, attr_value a = None ∨ attr_value a = Some value) (live e)
            = None) as ->; [|done].
    apply list_find_None, Forall_forall. intros b Hb [Hv|Hv];
      destruct (Hall b Hb) as (v & Hv' & Hne); congruence.
  - intros k a Hk Ha Hlt. rewrite (Hstop k a) by auto. by rewrite Ha.
Qed.

Lemma get_name_by_value_cases_witness :
  (∀ k a, live img_src_alt !! k = Some a → attr_value a = Some "pic" →
          (∀ j b, j < k → live img_src_alt !! j = Some b →
                  ∃ v, attr_value b = Some v ∧ v ≠ "pic") →
          mxmlElementGetAttrName (elem img_src_alt) (Some "pic") = Ok (attr_name a)) ∧
  ((∀ b, b ∈ live img_src_alt → ∃ v, attr_value b = Some v ∧ v ≠ "pic") →
   mxmlElementGetAttrName (elem img_src_alt) (Some "pic") = Ok None) ∧
  (∀ k a, live img_src_alt !! k = Some a → attr_value a = None →
          (∀ j b, j < k → live img_src_alt !! j = Some b →
                  ∃ v, attr_value b = Some v ∧ v ≠ "pic") →
          mxmlElementGetAttrName (elem img_src_alt) (Some "pic") = Undefined).
Proof. apply (get_name_by_value_cases img_src_alt "pic"). reflexivity. Defined.

(** X4.  On an element with pairwise distinct names, a name that
    [mxmlElementGetAttrName] returns for a value leads
    [mxmlElementGetAttrValue] back to that value. *)
Theorem name_of_value_round_trip e value name :
  element_ok e = true →
  NoDup (names e) →
  mxmlElementGetAttrName (elem e) (Some value) = Ok (Some name) →
  mxmlElementGetAttrValue (elem e) (Some name) = Ok (Some value).
Proof.
  intros He%element_ok_wf Hnd Hget.
  rewrite GetAttrName_elem in Hget by done. rewrite GetAttrValue_elem by done.
  destruct (list_find _ _) as [[k a]|] eqn:Hf in Hget; [|done].
  apply list_find_Some in Hf as (Hk & Hv & _).
  destruct (attr_value a) as [v|] eqn:Hva; [|done].
  injection Hget as Hna. destruct Hv as [Hv|Hv]; [done|]. injection Hv as ->.
  destruct (list_find_elem_of (named name) (live e) a) as [[k' a'] Hf'];
    [by eapply list_elem_of_lookup_2|done|].
  rewrite Hf'. apply list_find_Some in Hf' as (Hk' & Hna' & _).
  assert (k' = k) as ->.
  { eapply NoDup_lookup; [exact Hnd|unfold names..].
    - rewrite list_lookup_fmap, Hk'. cbn. by rewrite Hna'.
    - rewrite list_lookup_fmap, Hk. cbn. by rewrite Hna. }
  rewrite Hk in Hk'. injection Hk' as <-. cbn. by rewrite Hva.
Qed.

Lemma name_of_value_round_trip_witness :
  mxmlElementGetAttrValue (elem img_src_alt) (Some "alt") = Ok (Some "pic").
Proof.
  apply (name_of_value_round_trip img_src_alt "pic" "alt").
  - reflexivity.
  - apply (bool_decide_unpack (NoDup (names img_src_alt))). vm_compute. exact I.
  - reflexivity.
Defined.

(** ** Setting a value *)

Lemma get_alter_other name other v l k a :
  l !! k = Some a → named name a → other ≠ name →
  list_find (named other) (alter (set_value v) k l) ≫= attr_value ∘ snd
  = list_find (named other) l ≫= attr_value ∘ snd.
Proof.
  intros Hk Ha Hne. revert k Hk.
  induction l as [|b l IH]; intros k Hk; [done|].
  destruct k as [|k]; cbn in Hk |- *.
  - injection Hk as ->.
    rewrite !decide_False by (unfold named in *; cbn; congruence). done.
  - destruct (decide (named other b)); [done|].
    rewrite !bind_shifted by done. by apply IH.
Qed.

Lemma get_snoc_other name other v l :
  other ≠ name →
  list_find (named other) (l ++ [ {| attr_name := Some name; attr_value := v |} ])
    ≫= attr_value ∘ snd
  = list_find (named other) l ≫= attr_value ∘ snd.
Proof.
  intros Hne. induction l as [|b l IH]; cbn.
  - rewrite decide_False by (unfold named; cbn; congruence). done.
  - destruct (decide (named other b)); [done|].
    by rewrite !bind_shifted.
Qed.

(** X5.  What [mxmlElementGetAttrValue] reads after [mxmlElementSetAttr],
    whatever the allocator answers: after status 0 the value given, unless
    its copy was refused, and then NULL; after status -1 NULL, since the
    name was not stored before and is not stored now. *)
Theorem set_value_read_back e name value s st node' s' evs :
  element_ok e = true →
  mxmlElementSetAttr (elem e) (Some name) value s = Ok ((st, node'), s', evs) →
  (st = Some 0%Z → ¬ In (Alloc ValueCopy false) evs →
   mxmlElementGetAttrValue node' (Some name) = Ok value) ∧
  (st = Some 0%Z → In (Alloc ValueCopy false) evs →
   mxmlElementGetAttrValue node' (Some name) = Ok None) ∧
  (st = Some (-1)%Z →
   mxmlElementGetAttrValue node' (Some name) = Ok None).
Proof.
  intros He%element_ok_wf Hrun.
  destruct (SetAttr_cases e name value s He) as (rc & e' & s1 & evs1 & Hrun' & Hc).
  rewrite Hrun' in Hrun. injection Hrun as <- <- <- <-.
  pose proof (set_attr_case_wf _ _ _ _ _ _ _ _ He Hc) as He'.
  rewrite GetAttrValue_elem by done.
  assert (Hcopy : In (Alloc ValueCopy false) (copy_events value s ++ evs1) ↔
                  In (Alloc ValueCopy false) (copy_events value s)).
  { rewrite in_app_iff. split; [|auto]. intros [?|Hin]; [done|].
    destruct Hc; cbn in Hin; intuition congruence. }
  split_and!.
  - intros [= ->] Hno.
    destruct (set_attr_case_ok _ _ _ _ _ _ _ He Hc) as (k & a & -> & Ha).
    cbn. rewrite Ha. f_equal. apply copied_granted. by rewrite <- Hcopy.
  - intros [= ->] Hin%Hcopy.
    destruct (set_attr_case_ok _ _ _ _ _ _ _ He Hc) as (k & a & -> & Ha).
    cbn. rewrite Ha. f_equal.
    destruct value as [v|]; cbn in Hin |- *; [|done].
    destruct (next_answer s); [intuition congruence|done].
  - intros [= ->].
    destruct (set_attr_case_failed _ _ _ _ _ _ _ He Hc) as (_ & -> & _).
    by inversion Hc as [|Hf ?|Hf ? ?|]; subst; rewrite Hf.
Qed.

Lemma set_value_read_back_witness :
  (Some 0%Z = Some 0%Z → ¬ In (Alloc ValueCopy false) [Alloc ValueCopy true] →
   mxmlElementGetAttrValue (elem (img_src (Some "b.png"))) (Some "src") = Ok (Some "b.png")) ∧
  (Some 0%Z = Some 0%Z → In (Alloc ValueCopy false) [Alloc ValueCopy true] →
   mxmlElementGetAttrValue (elem (img_src (Some "b.png"))) (Some "src") = Ok None) ∧
  (Some 0%Z = Some (-1)%Z →
   mxmlElementGetAttrValue (elem (img_src (Some "b.png"))) (Some "src") = Ok None).
Proof.
  apply (set_value_read_back (img_src (Some "a.png")) "src" (Some "b.png") []
           (Some 0%Z) (elem (img_src (Some "b.png"))) [] [Alloc ValueCopy true]).
  - reflexivity.
  - reflexivity.
Defined.

(** X6.  [mxmlElementSetAttr] with one name never changes what
    [mxmlElementGetAttrValue] answers for another name, whether the call
    succeeds or fails and whatever the allocator answers. *)
Theorem set_value_keeps_others e name value s st node' s' evs other :
  element_ok e = true →
  mxmlElementSetAttr (elem e) (Some name) value s = Ok ((st, node'), s', evs) →
  other ≠ name →
  mxmlElementGetAttrValue node' (Some other) = mxmlElementGetAttrValue (elem e) (Some other).
Proof.
  intros He%element_ok_wf Hrun Hne.
  destruct (SetAttr_cases e name value s He) as (rc & e' & s1 & evs1 & Hrun' & Hc).
  rewrite Hrun' in Hrun. injection Hrun as <- <- <- <-.
  pose proof (set_attr_case_wf _ _ _ _ _ _ _ _ He Hc) as He'.
  rewrite !GetAttrValue_elem by done. f_equal.
  destruct He as [Hn Hl].
  inversion Hc as [k a Hf| | |]; subst.
  - apply find_named_live in Hf as (Hk & Hka & Hna).
    rewrite live_set_value by done. by eapply get_alter_other.
  - done.
  - by rewrite live_name_refused.
  - rewrite live_added by done. by apply get_snoc_other.
Qed.

Lemma set_value_keeps_others_witness :
  mxmlElementGetAttrValue (elem img_src_alt) (Some "src")
  = mxmlElementGetAttrValue (elem (img_src (Some "b.png"))) (Some "src").
Proof.
  apply (set_value_keeps_others (img_src (Some "b.png")) "alt" (Some "pic") []
           (Some 0%Z) (elem img_src_alt) []
           [Alloc ValueCopy true; Alloc ArrayGrowth true; Alloc NameCopy true] "src").
  - reflexivity.
  - reflexivity.
  - discriminate.
Defined.

(** X7.  A successful [mxmlElementSetAttr] with a name that no slot in use
    carries appends one slot behind the slots in use, which it leaves as
    they are, and the array then has exactly as many slots as are in use:
    the growth is by one slot with no spare room, whatever room the array
    had before. *)
Theorem set_new_name_appends e name value s node' s' evs :
  element_ok e = true →
  (∀ a, a ∈ live e → ¬ named name a) →
  mxmlElementSetAttr (elem e) (Some name) value s = Ok ((Some 0%Z, node'), s', evs) →
  ∃ e' v, node' = elem e' ∧
          num_attrs e' = num_attrs e + 1 ∧
          live e' = live e ++ [ {| attr_name := Some name; attr_value := v |} ] ∧
          (¬ In (Alloc ValueCopy false) evs → v = value) ∧
          attrs e' = live e'.
Proof.
  intros He%element_ok_wf Hno Hrun.
  destruct (SetAttr_cases e name value s He) as (rc & e' & s1 & evs1 & Hrun' & Hc).
  rewrite Hrun' in Hrun. injection Hrun as -> <- <- <-.
  apply find_named_absent in Hno. destruct He as [Hn Hl].
  inversion Hc as [k a Hf| | |Hf Hs Hs']; subst; [congruence|].
  eexists _, (copied value s). split_and!; [done|done|by apply live_added| |].
  - intros Hin. apply copied_granted. intros Hc'. apply Hin, in_or_app. by left.
  - unfold live. cbn [attrs num_attrs set_num_attrs set_attrs].
    rewrite take_ge; [done|]. rewrite !length_alter, length_grown. lia.
Qed.

Lemma set_new_name_appends_witness :
  ∃ e' v, elem img_src_alt = elem e' ∧
          num_attrs e' = num_attrs (img_src (Some "b.png")) + 1 ∧
          live e' = live (img_src (Some "b.png"))
                    ++ [ {| attr_name := Some "alt"; attr_value := v |} ] ∧
          (¬ In (Alloc ValueCopy false)
               [Alloc ValueCopy true; Alloc ArrayGrowth true; Alloc NameCopy true] →
           v = Some "pic") ∧
          attrs e' = live e'.
Proof.
  apply (set_new_name_appends (img_src (Some "b.png")) "alt" (Some "pic") []
           (elem img_src_alt) []
           [Alloc ValueCopy true; Alloc ArrayGrowth true; Alloc NameCopy true]).
  - reflexivity.
  - intros a Ha. apply list_elem_of_In in Ha. cbn in Ha.
    destruct Ha as [<-|[]]. discriminate.
  - reflexivity.
Defined.

(** X8.  [mxmlElementSetAttr] on an element with a name: the status is 0
    or -1; it is -1 exactly when the growth of the array or the copy of the
    name was refused; the Error Reporter is called once in that case, with
    the attribute and the element, and not at all otherwise; and the call
    asks the allocator for memory at most three times. *)
Theorem set_value_status_and_reports e name value s st node' s' evs :
  element_ok e = true →
  mxmlElementSetAttr (elem e) (Some name) value s = Ok ((st, node'), s', evs) →
  (st = Some 0%Z ∧ reports evs = [] ∨
   st = Some (-1)%Z ∧ reports evs = [(alloc_failure, [name; element_name e])]) ∧
  (st = Some (-1)%Z ↔
   In (Alloc ArrayGrowth false) evs ∨ In (Alloc NameCopy false) evs) ∧
  requests evs ≤ 3.
Proof.
  intros He%element_ok_wf Hrun.
  destruct (SetAttr_cases e name value s He) as (rc & e' & s1 & evs1 & Hrun' & Hc).
  rewrite Hrun' in Hrun. injection Hrun as <- <- <- <-.
  destruct value as [v|]; cbn [copy_events app];
    destruct Hc; cbn; (split_and!; [auto|split; [intros [=]|]; intuition congruence|lia]).
Qed.

Lemma set_value_status_and_reports_witness :
  (Some (-1)%Z = Some 0%Z ∧
   reports [Alloc ValueCopy true; Alloc ArrayGrowth false;
            Report alloc_failure ["src"; "img"]] = [] ∨
   Some (-1)%Z = Some (-1)%Z ∧
   reports [Alloc ValueCopy true; Alloc ArrayGrowth false;
            Report alloc_failure ["src"; "img"]]
   = [(alloc_failure, ["src"; element_name (no_attrs "img")])]) ∧
  (Some (-1)%Z = Some (-1)%Z ↔
   In (Alloc ArrayGrowth false)
      [Alloc ValueCopy true; Alloc ArrayGrowth false; Report alloc_failure ["src"; "img"]] ∨
   In (Alloc NameCopy false)
      [Alloc ValueCopy true; Alloc ArrayGrowth false; Report alloc_failure ["src"; "img"]]) ∧
  requests [Alloc ValueCopy true; Alloc ArrayGrowth false;
            Report alloc_failure ["src"; "img"]] ≤ 3.
Proof.
  apply (set_value_status_and_reports (no_attrs "img") "src" (Some "a.png") [true; false]
           (Some (-1)%Z) (elem (no_attrs "img")) []
           [Alloc ValueCopy true; Alloc ArrayGrowth false;
            Report alloc_failure ["src"; "img"]]).
  - reflexivity.
  - reflexivity.
Defined.

(** X9.  The two refusals inside [mxml_set_attr] differ in what they leave
    behind.  After a refused growth the node is exactly as before.  After a
    refused copy of the name the array has already been replaced by one of
    [num_attrs + 1] slots, while the count still says [num_attrs]: one slot
    is allocated and not in use. *)
Theorem set_failure_leaves_array e name value s st node' s' evs :
  element_ok e = true →
  mxmlElementSetAttr (elem e) (Some name) value s = Ok ((st, node'), s', evs) →
  (In (Alloc ArrayGrowth false) evs → node' = elem e) ∧
  (In (Alloc NameCopy false) evs →
   ∃ e', node' = elem e' ∧
         num_attrs e' = num_attrs e ∧
         length (attrs e') = num_attrs e + 1).
Proof.
  intros He%element_ok_wf Hrun.
  destruct (SetAttr_cases e name value s He) as (rc & e' & s1 & evs1 & Hrun' & Hc).
  rewrite Hrun' in Hrun. injection Hrun as <- <- <- <-.
  assert (Hev : ∀ site, site ≠ ValueCopy →
            In (Alloc site false) (copy_events value s ++ evs1) → In (Alloc site false) evs1).
  { intros site Hsite [Hin|Hin]%in_app_or; [|done].
    by apply copy_events_only_value in Hin as [? _]. }
  split.
  - intros Hin%Hev; [|done].
    destruct Hc; cbn in Hin; intuition congruence.
  - intros Hin%Hev; [|done].
    destruct Hc; cbn in Hin; try (intuition congruence).
    eexists. split_and!; [done..|]. cbn. by rewrite length_alter, length_grown.
Qed.

Lemma set_failure_leaves_array_witness :
  (In (Alloc ArrayGrowth false)
      [Alloc ValueCopy true; Alloc ArrayGrowth true; Alloc NameCopy false;
       Report alloc_failure ["src"; "img"]] →
   elem (set_attrs (attrs img_alt ++ [fresh_slot]) img_alt) = elem img_alt) ∧
  (In (Alloc NameCopy false)
      [Alloc ValueCopy true; Alloc ArrayGrowth true; Alloc NameCopy false;
       Report alloc_failure ["src"; "img"]] →
   ∃ e', elem (set_attrs (attrs img_alt ++ [fresh_slot]) img_alt) = elem e' ∧
         num_attrs e' = num_attrs img_alt ∧
         length (attrs e') = num_attrs img_alt + 1).
Proof.
  apply (set_failure_leaves_array img_alt "src" (Some "a.png") [true; true; false]
           (Some (-1)%Z) _ []
           [Alloc ValueCopy true; Alloc ArrayGrowth true; Alloc NameCopy false;
            Report alloc_failure ["src"; "img"]]).
  - reflexivity.
  - reflexivity.
Defined.

(** ** Setting a formatted value *)

(** X10.  After a successful [mxmlElementSetAttrf] the attribute reads back
    as the composed string.  Unlike [mxmlElementSetAttr], the call cannot
    succeed and leave a NULL value: a refused buffer for the composed string
    ends the call before [mxml_set_attr]. *)
Theorem set_formatted_read_back {va_list} (vsnprintf : string → va_list → string)
  e name format ap s node' s' evs :
  element_ok e = true →
  mxmlElementSetAttrf vsnprintf (elem e) (Some name) (Some format) ap s
  = Ok ((Some 0%Z, node'), s', evs) →
  mxmlElementGetAttrValue node' (Some name) = Ok (Some (vsnprintf format ap)).
Proof.
  intros He%element_ok_wf Hrun. rewrite SetAttrf_elem in Hrun.
  destruct (next_answer s); [|done].
  destruct (mxml_set_attr_cases e name (Some (vsnprintf format ap)) (tail s) He)
    as (rc & e' & s1 & evs1 & Hrun' & Hc).
  rewrite Hrun' in Hrun. injection Hrun as -> <- <- <-.
  destruct (set_attr_case_ok _ _ _ _ _ _ _ He Hc) as (k & a & Hf & Ha).
  change (Some (element_node e')) with (elem e').
  rewrite GetAttrValue_elem, Hf by (by eapply set_attr_case_wf).
  cbn. by rewrite Ha.
Qed.

Lemma set_formatted_read_back_witness :
  mxmlElementGetAttrValue (elem (img_src (Some "a.png"))) (Some "src")
  = Ok (Some (verbatim "a.png" tt)).
Proof.
  apply (set_formatted_read_back verbatim (no_attrs "img") "src" "a.png" tt []
           (elem (img_src (Some "a.png"))) []
           [Alloc FormatValue true; Alloc ArrayGrowth true; Alloc NameCopy true]).
  - reflexivity.
  - reflexivity.
Defined.

(** X11.  In [mxmlElementSetAttrf] every refused allocation is reported:
    either no request is refused, nothing is reported and the status is 0,
    or one request is refused, the Error Reporter is called exactly once
    with the attribute and the element, and the status is not 0.  The call
    asks the allocator for memory at most three times. *)
Theorem set_formatted_reports_refusal {va_list} (vsnprintf : string → va_list → string)
  e name format ap s st node' s' evs :
  element_ok e = true →
  mxmlElementSetAttrf vsnprintf (elem e) (Some name) (Some format) ap s
  = Ok ((st, node'), s', evs) →
  (st = Some 0%Z ∧ reports evs = [] ∧ (∀ site, ¬ In (Alloc site false) evs) ∨
   st ≠ Some 0%Z ∧ reports evs = [(alloc_failure, [name; element_name e])] ∧
   (∃ site, In (Alloc site false) evs)) ∧
  requests evs ≤ 3.
Proof.
  intros He%element_ok_wf Hrun. rewrite SetAttrf_elem in Hrun.
  destruct (next_answer s).
  - destruct (mxml_set_attr_cases e name (Some (vsnprintf format ap)) (tail s) He)
      as (rc & e' & s1 & evs1 & Hrun' & Hc).
    rewrite Hrun' in Hrun. injection Hrun as <- <- <- <-.
    destruct Hc; cbn; (split; [|lia]).
    + left. split_and!; [done..|]. intros site [?|[]]; congruence.
    + right. split_and!; [done..|]. exists ArrayGrowth. auto.
    + right. split_and!; [done..|]. exists NameCopy. auto.
    + left. split_and!; [done..|]. intros site [?|[?|[]]]; congruence.
  - injection Hrun as <- <- <- <-. cbn. split; [|lia].
    right. split_and!; [done..|]. exists FormatValue. auto.
Qed.

Lemma set_formatted_reports_refusal_witness :
  (@None Z = Some 0%Z ∧
   reports [Alloc FormatValue false; Report alloc_failure ["src"; "img"]] = [] ∧
   (∀ site, ¬ In (Alloc site false)
                 [Alloc FormatValue false; Report alloc_failure ["src"; "img"]]) ∨
   @None Z ≠ Some 0%Z ∧
   reports [Alloc FormatValue false; Report alloc_failure ["src"; "img"]]
   = [(alloc_failure, ["src"; element_name (no_attrs "img")])] ∧
   (∃ site, In (Alloc site false)
               [Alloc FormatValue false; Report alloc_failure ["src"; "img"]])) ∧
  requests [Alloc FormatValue false; Report alloc_failure ["src"; "img"]] ≤ 3.
Proof.
  apply (set_formatted_reports_refusal verbatim (no_attrs "img") "src" "a.png" tt [false]
           None (elem (no_attrs "img")) []
           [Alloc FormatValue false; Report alloc_failure ["src"; "img"]]).
  - reflexivity.
  - reflexivity.
Defined.

(** ** Deleting *)

Lemma get_delete_other name other l : ∀ k a,
  l !! k = Some a → named name a → other ≠ name →
  list_find (named other) (delete k l) ≫= attr_value ∘ snd
  = list_find (named other) l ≫= attr_value ∘ snd.
Proof.
  induction l as [|b l IH]; intros k a Hk Ha Hne; [done|].
  destruct k as [|k]; cbn in Hk |- *.
  - injection Hk as ->.
    rewrite decide_False by (unfold named in *; congruence).
    by rewrite bind_shifted.
  - destruct (decide (named other b)); [done|].
    rewrite !bind_shifted by done. by eapply IH.
Qed.

Lemma find_named_deleted name l k a :
  NoDup (attr_name <$> l) → l !! k = Some a → named name a →
  list_find (named name) (delete k l) = None.
Proof.
  intros Hnd Hk Ha. apply list_find_None, Forall_forall.
  intros b [j Hj]%list_elem_of_lookup_1 Hb.
  assert (∃ j', j' ≠ k ∧ l !! j' = Some b) as (j' & Hne & Hj').
  { destruct (decide (j < k)).
    - exists j. split; [lia|]. by rewrite list_lookup_delete_lt in Hj.
    - exists (S j). split; [lia|]. by rewrite list_lookup_delete_ge in Hj by lia. }
  apply Hne. eapply NoDup_lookup; [exact Hnd|..].
  - rewrite list_lookup_fmap, Hj'. cbn. by rewrite Hb.
  - rewrite list_lookup_fmap, Hk. cbn. by rewrite Ha.
Qed.

(** X12.  On an element with pairwise distinct names, after
    [mxmlElementDeleteAttr] the name reads as NULL; deleting it a second
    time leaves the node as the first deletion left it. *)
Theorem delete_then_get e name :
  element_ok e = true →
  NoDup (names e) →
  ∃ e', mxmlElementDeleteAttr (elem e) (Some name) = Ok (elem e') ∧
        mxmlElementGetAttrValue (elem e') (Some name) = Ok None ∧
        mxmlElementDeleteAttr (elem e') (Some name) = Ok (elem e').
Proof.
  intros He%element_ok_wf Hnd. rewrite DeleteAttr_elem by done.
  destruct (list_find (named name) (live e)) as [[k a]|] eqn:Hf.
  - apply find_named_live in Hf as (Hk & Hka & Hna). pose proof He as [Hn Hl].
    pose proof (wf_close_gap e k He Hk) as He'.
    assert (Hgone : list_find (named name) (live (close_gap k (num_attrs e - k - 1) e))
                    = None).
    { rewrite live_close_gap by done. by eapply find_named_deleted. }
    eexists. split_and!; [done| |].
    + by rewrite GetAttrValue_elem, Hgone.
    + by rewrite DeleteAttr_elem, Hgone.
  - exists e. split_and!; [done| |].
    + by rewrite GetAttrValue_elem, Hf.
    + by rewrite DeleteAttr_elem, Hf.
Qed.

Lemma delete_then_get_witness :
  ∃ e', mxmlElementDeleteAttr (elem img_src_alt) (Some "src") = Ok (elem e') ∧
        mxmlElementGetAttrValue (elem e') (Some "src") = Ok None ∧
        mxmlElementDeleteAttr (elem e') (Some "src") = Ok (elem e').
Proof.
  apply (delete_then_get img_src_alt "src").
  - reflexivity.
  - apply (bool_decide_unpack (NoDup (names img_src_alt))). vm_compute. exact I.
Defined.

(** X13.  [mxmlElementDeleteAttr] with one name never changes what
    [mxmlElementGetAttrValue] answers for another name, and it never gives
    memory back: the array keeps the number of slots it had. *)
Theorem delete_keeps_others e name :
  element_ok e = true →
  ∃ e', mxmlElementDeleteAttr (elem e) (Some name) = Ok (elem e') ∧
        length (attrs e') = length (attrs e) ∧
        ∀ other, other ≠ name →
          mxmlElementGetAttrValue (elem e') (Some other)
          = mxmlElementGetAttrValue (elem e) (Some other).
Proof.
  intros He%element_ok_wf. rewrite DeleteAttr_elem by done.
  destruct (list_find (named name) (live e)) as [[k a]|] eqn:Hf; [|by exists e].
  apply find_named_live in Hf as (Hk & Hka & Hna). pose proof He as [Hn Hl].
  eexists. split_and!; [done|by apply length_close_gap|].
  intros other Hne.
  rewrite !GetAttrValue_elem by (done || by apply wf_close_gap).
  rewrite live_close_gap by done. f_equal. by eapply get_delete_other.
Qed.

Lemma delete_keeps_others_witness :
  ∃ e', mxmlElementDeleteAttr (elem img_src_alt) (Some "src") = Ok (elem e') ∧
        length (attrs e') = length (attrs img_src_alt) ∧
        ∀ other, other ≠ "src" →
          mxmlElementGetAttrValue (elem e') (Some other)
          = mxmlElementGetAttrValue (elem img_src_alt) (Some other).
Proof. apply (delete_keeps_others img_src_alt "src"). reflexivity. Defined.

(** ** Calls in sequence *)

Lemma delete_last {A} (l : list A) x : delete (length l) (l ++ [x]) = l.
Proof.
  rewrite delete_take_drop, take_app_length, drop_ge, app_nil_r; [done|].
  rewrite length_app. cbn. lia.
Qed.

(** X14.  Adding an attribute and deleting it again gives back the
    attributes there were: after a successful [mxmlElementSetAttr] with a
    name that no slot in use carried, [mxmlElementDeleteAttr] with that name
    leaves the count and the slots in use as they were before the two
    calls. *)
Theorem set_then_delete_restores e name value s node1 s' evs :
  element_ok e = true →
  (∀ a, a ∈ live e → ¬ named name a) →
  mxmlElementSetAttr (elem e) (Some name) value s = Ok ((Some 0%Z, node1), s', evs) →
  ∃ e2, mxmlElementDeleteAttr node1 (Some name) = Ok (elem e2) ∧
        num_attrs e2 = num_attrs e ∧
        live e2 = live e.
Proof.
  intros He%element_ok_wf Hno Hrun.
  destruct (SetAttr_cases e name value s He) as (rc & e1 & s1 & evs1 & Hrun' & Hc).
  rewrite Hrun' in Hrun. injection Hrun as -> <- <- <-.
  apply find_named_absent in Hno.
  pose proof (set_attr_case_wf _ _ _ _ _ _ _ _ He Hc) as He1.
  assert (num_attrs e1 = num_attrs e + 1 ∧
          ∃ x, named name x ∧ live e1 = live e ++ [x]) as (Hn1 & x & Hx & Hl1).
  { destruct He as [Hn Hl].
    inversion Hc as [k a Hf| | |Hf Hs Hs']; subst; [congruence|].
    split; [done|]. eexists. split; [|by apply live_added]. done. }
  assert (Hlen : length (live e) = num_attrs e).
  { unfold live. apply length_take_le, He. }
  assert (Hf1 : list_find (named name) (live e1) = Some (num_attrs e, x)).
  { rewrite Hl1. apply list_find_Some. split_and!.
    - by rewrite lookup_app_r, Hlen, Nat.sub_diag by lia.
    - done.
    - intros j b Hj Hjn. rewrite lookup_app_l in Hj by lia.
      apply list_find_None in Hno. by eapply Forall_lookup_1 in Hno. }
  rewrite DeleteAttr_elem, Hf1 by done.
  eexists. split_and!; [done| |].
  - cbn. lia.
  - rewrite live_close_gap by (lia || apply He1).
    by rewrite Hl1, <- Hlen, delete_last.
Qed.

Lemma set_then_delete_restores_witness :
  ∃ e2, mxmlElementDeleteAttr (elem img_src_alt) (Some "alt") = Ok (elem e2) ∧
        num_attrs e2 = num_attrs (img_src (Some "b.png")) ∧
        live e2 = live (img_src (Some "b.png")).
Proof.
  apply (set_then_delete_restores (img_src (Some "b.png")) "alt" (Some "pic") []
           (elem img_src_alt) []
           [Alloc ValueCopy true; Alloc ArrayGrowth true; Alloc NameCopy true]).
  - reflexivity.
  - intros a Ha. apply list_elem_of_In in Ha. cbn in Ha.
    destruct Ha as [<-|[]]. discriminate.
  - reflexivity.
Defined.

Lemma set_attr_case_element_name e name v s rc e' s' evs :
  set_attr_case e name v s rc e' s' evs → element_name e' = element_name e.
Proof. by destruct 1. Qed.

(** X15.  Every call keeps the node an element with the name it had and
    keeps the invariant of the array: the count stays within the array and
    every slot in use has a name.  On such an element every call has defined
    behaviour except [mxmlElementGetAttrName], and that one only when a slot
    in use has a NULL value. *)
Theorem calls_keep_the_array_sound {va_list} (vsnprintf : string → va_list → string)
  (c : call va_list) e s :
  element_ok e = true →
  match exec vsnprintf c (elem e) s with
  | Ok ((_, node'), _, _) =>
      ∃ e', node' = elem e' ∧ element_ok e' = true ∧ element_name e' = element_name e
  | Undefined =>
      ∃ v a, c = GetNameByValue (Some v) ∧ a ∈ live e ∧ attr_value a = None
  end.
Proof.
  intros Hok. pose proof Hok as He%element_ok_wf.
  destruct c as [name|value|name value|name format ap|name]; unfold exec, bind, lift, ret.
  - destruct name as [name|]; [rewrite GetAttrValue_elem by done|cbn]; by exists e.
  - destruct value as [value|]; [rewrite GetAttrName_elem by done|cbn; by exists e].
    destruct (list_find _ _) as [[k a]|] eqn:Hf; [|by exists e].
    destruct (attr_value a) eqn:Ha; [by exists e|].
    apply list_find_Some in Hf as (Hk & _ & _).
    exists value, a. split_and!; [done| |done]. by eapply list_elem_of_lookup_2.
  - destruct name as [name|]; [|cbn; by exists e].
    destruct (SetAttr_cases e name value s He) as (rc & e' & s' & evs & -> & Hc).
    exists e'. split_and!; [done| |by eapply set_attr_case_element_name].
    apply element_ok_wf. by eapply set_attr_case_wf.
  - destruct name as [name|], format as [format|]; try (cbn; by exists e).
    rewrite SetAttrf_elem. destruct (next_answer s); [|by exists e].
    destruct (mxml_set_attr_cases e name (Some (vsnprintf format ap)) (tail s) He)
      as (rc & e' & s' & evs & -> & Hc).
    exists e'. split_and!; [done| |by eapply set_attr_case_element_name].
    apply element_ok_wf. by eapply set_attr_case_wf.
  - destruct name as [name|]; [|cbn; by exists e].
    rewrite DeleteAttr_elem by done.
    destruct (list_find (named name) (live e)) as [[k a]|] eqn:Hf; [|by exists e].
    apply find_named_live in Hf as (Hk & _).
    eexists. split_and!; [done| |done].
    by apply element_ok_wf, wf_close_gap.
Qed.

Lemma calls_keep_the_array_sound_witness :
  match exec verbatim (DeleteByName (Some "src")) (elem img_src_alt) [] with
  | Ok ((_, node'), _, _) =>
      ∃ e', node' = elem e' ∧ element_ok e' = true ∧
            element_name e' = element_name img_src_alt
  | Undefined =>
      ∃ v a, @DeleteByName unit (Some "src") = GetNameByValue (Some v) ∧
             a ∈ live img_src_alt ∧ attr_value a = None
  end.
Proof.
  apply (calls_keep_the_array_sound verbatim (DeleteByName (Some "src")) img_src_alt []).
  reflexivity.
Defined.

(** ** The slots past the count *)

Lemma set_attr_case_same_store e1 e2 name v s rc1 e1' s1 evs1 rc2 e2' s2 evs2 :
  wf e1 → wf e2 → same_store e1 e2 →
  set_attr_case e1 name v s rc1 e1' s1 evs1 →
  set_attr_case e2 name v s rc2 e2' s2 evs2 →
  rc1 = rc2 ∧ s1 = s2 ∧ evs1 = evs2 ∧ same_store e1' e2'.
Proof.
  intros [Hn1 Hl1] [Hn2 Hl2] (Hname & Hnum & Hlive) Hc1 Hc2.
  inversion Hc1 as [k1 a1 Hf1|Hf1 Hs1|Hf1 Hs1 Hs1'|Hf1 Hs1 Hs1']; subst;
    inversion Hc2 as [k2 a2 Hf2|Hf2 Hs2|Hf2 Hs2 Hs2'|Hf2 Hs2 Hs2']; subst;
    rewrite Hlive in Hf1; try congruence.
  - rewrite Hf1 in Hf2. injection Hf2 as <- <-.
    split_and!; [done..|]. split_and!; [done..|].
    assert (k1 < num_attrs e2) as Hk.
    { rewrite <- Hlive in Hf1. apply find_named_live in Hf1 as [Hk _]. lia. }
    rewrite !live_set_value by lia. by rewrite Hlive.
  - rewrite Hname. by split_and!.
  - rewrite Hname. split_and!; [done..|]. split_and!; [done..|].
    by rewrite !live_name_refused.
  - split_and!; [done..|]. split_and!; [done|cbn; lia|].
    rewrite !live_added by done. by rewrite Hlive.
Qed.

(** X16.  No call reads or depends on a slot past the count: on two
    elements with the same element name, the same count and the same slots
    in use, whatever the rest of their arrays holds, every call gives the
    same reply, asks the allocator the same, reports the same, and leaves
    two elements that again agree in name, count and slots in use. *)
Theorem calls_ignore_unused_slots {va_list} (vsnprintf : string → va_list → string)
  (c : call va_list) e1 e2 s :
  element_ok e1 = true →
  element_ok e2 = true →
  same_store e1 e2 →
  match exec vsnprintf c (elem e1) s, exec vsnprintf c (elem e2) s with
  | Ok ((r1, node1), s1, evs1), Ok ((r2, node2), s2, evs2) =>
      r1 = r2 ∧ s1 = s2 ∧ evs1 = evs2 ∧
      ∃ e1' e2', node1 = elem e1' ∧ node2 = elem e2' ∧ same_store e1' e2'
  | Undefined, Undefined => True
  | _, _ => False
  end.
Proof.
  intros He1%element_ok_wf He2%element_ok_wf Hsame.
  pose proof Hsame as (Hname & Hnum & Hlive).
  destruct c as [name|value|name value|name format ap|name]; unfold exec, bind, lift, ret.
  - destruct name as [name|]; [|cbn; by eauto 10].
    rewrite !GetAttrValue_elem, Hlive by done. by eauto 10.
  - destruct value as [value|]; [|cbn; by eauto 10].
    rewrite !GetAttrName_elem, Hlive by done.
    destruct (list_find _ _) as [[k a]|]; [|by eauto 10].
    destruct (attr_value a); [by eauto 10|done].
  - destruct name as [name|]; [|cbn; by eauto 10].
    destruct (SetAttr_cases e1 name value s He1) as (rc1 & e1' & s1 & evs1 & -> & Hc1).
    destruct (SetAttr_cases e2 name value s He2) as (rc2 & e2' & s2 & evs2 & -> & Hc2).
    destruct (set_attr_case_same_store _ _ _ _ _ _ _ _ _ _ _ _ _ He1 He2 Hsame Hc1 Hc2)
      as (-> & -> & -> & Hsame').
    by eauto 10.
  - destruct name as [name|], format as [format|]; try (cbn; by eauto 10).
    rewrite !SetAttrf_elem, Hname. destruct (next_answer s); [|by eauto 10].
    destruct (mxml_set_attr_cases e1 name (Some (vsnprintf format ap)) (tail s) He1)
      as (rc1 & e1' & s1 & evs1 & -> & Hc1).
    destruct (mxml_set_attr_cases e2 name (Some (vsnprintf format ap)) (tail s) He2)
      as (rc2 & e2' & s2 & evs2 & -> & Hc2).
    destruct (set_attr_case_same_store _ _ _ _ _ _ _ _ _ _ _ _ _ He1 He2 Hsame Hc1 Hc2)
      as (-> & -> & -> & Hsame').
    by eauto 10.
  - destruct name as [name|]; [|cbn; by eauto 10].
    rewrite !DeleteAttr_elem, Hlive by done.
    destruct (list_find (named name) (live e2)) as [[k a]|] eqn:Hf; [|by eauto 10].
    apply find_named_live in Hf as (Hk & _).
    split_and!; [done..|]. eexists _, _. split_and!; [done..|].
    split_and!; [done|cbn; lia|].
    destruct He1 as [Hn1 _], He2 as [Hn2 _].
    rewrite !live_close_gap by lia. by rewrite Hlive.
Qed.

Lemma calls_ignore_unused_slots_witness :
  match exec verbatim (SetValue (Some "src") (Some "a.png")) (elem img_alt) [],
        exec verbatim (SetValue (Some "src") (Some "a.png"))
          (elem (set_attrs (attrs img_alt ++ attrs img_src_alt) img_alt)) [] with
  | Ok ((r1, node1), s1, evs1), Ok ((r2, node2), s2, evs2) =>
      r1 = r2 ∧ s1 = s2 ∧ evs1 = evs2 ∧
      ∃ e1' e2', node1 = elem e1' ∧ node2 = elem e2' ∧ same_store e1' e2'
  | Undefined, Undefined => True
  | _, _ => False
  end.
Proof.
  apply (calls_ignore_unused_slots verbatim (SetValue (Some "src") (Some "a.png"))
           img_alt (set_attrs (attrs img_alt ++ attrs img_src_alt) img_alt) []).
  - reflexivity.
  - reflexivity.
  - repeat split.
Defined.

(** ** Setting one name twice *)

(** X17.  Two successful calls of [mxmlElementSetAttr] with one name, on an
    element with pairwise distinct names: the second call keeps the names
    and the count the first call left, and exactly one slot in use carries
    the name, at the position the first call gave it, whatever the allocator
    answers; that slot holds the second value if the copy of the second
    value was granted. *)
Theorem set_twice_one_slot e name v1 v2 s1 s2 e1 s1' evs1 e2 s2' evs2 :
  element_ok e = true →
  NoDup (names e) →
  mxmlElementSetAttr (elem e) (Some name) v1 s1 = Ok ((Some 0%Z, elem e1), s1', evs1) →
  mxmlElementSetAttr (elem e1) (Some name) v2 s2 = Ok ((Some 0%Z, elem e2), s2', evs2) →
  names e2 = names e1 ∧
  num_attrs e2 = num_attrs e1 ∧
  ∃ k v, names e1 !! k = Some (Some name) ∧
         live e2 !! k = Some {| attr_name := Some name; attr_value := v |} ∧
         (∀ j b, live e2 !! j = Some b → named name b → j = k) ∧
         (¬ In (Alloc ValueCopy false) evs2 → v = v2).
Proof.
  intros He Hnd Hrun1 Hrun2.
  destruct (overwrite _ _ _ _ _ _ _ _ _ _ _ _ He Hnd Hrun1 Hrun2)
    as (k & a & Hf1 & Hf2 & Hone & Hnames & Hnum & Hv).
  split_and!; [done..|]. exists k, (copied v2 s2).
  apply list_find_Some in Hf1 as (Hk1 & Ha & _).
  apply list_find_Some in Hf2 as (Hk2 & _ & _).
  split_and!; [| |done|done].
  - unfold names. rewrite list_lookup_fmap, Hk1. cbn. by rewrite Ha.
  - rewrite Hk2. unfold set_value. by rewrite Ha.
Qed.

Lemma set_twice_one_slot_witness :
  names (img_src (Some "b.png")) = names (img_src (Some "a.png")) ∧
  num_attrs (img_src (Some "b.png")) = num_attrs (img_src (Some "a.png")) ∧
  ∃ k v, names (img_src (Some "a.png")) !! k = Some (Some "src") ∧
         live (img_src (Some "b.png")) !! k
         = Some {| attr_name := Some "src"; attr_value := v |} ∧
         (∀ j b, live (img_src (Some "b.png")) !! j = Some b → named "src" b → j = k) ∧
         (¬ In (Alloc ValueCopy false) [Alloc ValueCopy true] → v = Some "b.png").
Proof.
  apply (set_twice_one_slot (no_attrs "img") "src" (Some "a.png") (Some "b.png") [] []
           (img_src (Some "a.png")) []
           [Alloc ValueCopy true; Alloc ArrayGrowth true; Alloc NameCopy true]
           (img_src (Some "b.png")) [] [Alloc ValueCopy true]).
  - reflexivity.
  - apply (bool_decide_unpack (NoDup (names (no_attrs "img")))). vm_compute. exact I.
  - reflexivity.
  - reflexivity.
Defined.

(** ** Distinct names *)

(** X18.  On an element whose slots in use carry pairwise distinct names,
    every call that returns leaves an element whose slots in use carry
    pairwise distinct names (and that satisfies the invariant of the array).
    The only call that may fail to return is [mxmlElementGetAttrName], and
    only when a slot in use has a NULL value. *)
Theorem names_stay_distinct {va_list} (vsnprintf : string → va_list → string)
  (c : call va_list) e s :
  element_ok e = true →
  NoDup (names e) →
  match exec vsnprintf c (elem e) s with
  | Ok ((_, node'), _, _) =>
      ∃ e', node' = elem e' ∧ element_ok e' = true ∧ NoDup (names e')
  | Undefined =>
      ∃ v a, c = GetNameByValue (Some v) ∧ a ∈ live e ∧ attr_value a = None
  end.
Proof.
  intros Hok Hnd. pose proof Hok as He%element_ok_wf.
  destruct c as [name|value|name value|name format ap|name]; unfold exec, bind, lift, ret.
  - destruct name as [name|]; [rewrite GetAttrValue_elem by done|cbn]; by exists e.
  - destruct value as [value|]; [rewrite GetAttrName_elem by done|cbn; by exists e].
    destruct (list_find _ _) as [[k a]|] eqn:Hf; [|by exists e].
    destruct (attr_value a) eqn:Ha; [by exists e|].
    apply list_find_Some in Hf as (Hk & _ & _).
    exists value, a. split_and!; [done| |done]. by eapply list_elem_of_lookup_2.
  - destruct name as [name|]; [|cbn; by exists e].
    destruct (SetAttr_cases e name value s He) as (rc & e' & s' & evs & -> & Hc).
    exists e'. split_and!; [done| |by eapply set_attr_case_NoDup].
    apply element_ok_wf. by eapply set_attr_case_wf.
  - destruct name as [name|], format as [format|]; try (cbn; by exists e).
    rewrite SetAttrf_elem. destruct (next_answer s); [|by exists e].
    destruct (mxml_set_attr_cases e name (Some (vsnprintf format ap)) (tail s) He)
      as (rc & e' & s' & evs & -> & Hc).
    exists e'. split_and!; [done| |by eapply set_attr_case_NoDup].
    apply element_ok_wf. by eapply set_attr_case_wf.
  - destruct name as [name|]; [|cbn; by exists e].
    rewrite DeleteAttr_elem by done.
    destruct (list_find (named name) (live e)) as [[k a]|] eqn:Hf; [|by exists e].
    apply find_named_live in Hf as (Hk & _). pose proof He as [Hn Hl].
    eexists. split_and!; [done| |].
    + apply element_ok_wf, wf_close_gap; [done|lia].
    + rewrite names_close_gap by lia.
      eapply sublist_NoDup; [done|]. apply sublist_delete.
Qed.

Lemma names_stay_distinct_witness :
  match exec verbatim (SetValue (Some "width") (Some "100")) (elem img_src_alt) [] with
  | Ok ((_, node'), _, _) =>
      ∃ e', node' = elem e' ∧ element_ok e' = true ∧ NoDup (names e')
  | Undefined =>
      ∃ v a, @SetValue unit (Some "width") (Some "100") = GetNameByValue (Some v) ∧
             a ∈ live img_src_alt ∧ attr_value a = None
  end.
Proof.
  apply (names_stay_distinct verbatim (SetValue (Some "width") (Some "100")) img_src_alt []).
  - reflexivity.
  - apply (bool_decide_unpack (NoDup (names img_src_alt))). vm_compute. exact I.
Defined.
